(** * The Strawberry Fields circuit drawer

    A shallow embedding of [strawberryfields/circuitdrawer.py]: the class
    [Circuit], which keeps one list of LaTeX cells per wire (the circuit
    matrix), places gates on it and writes it out as a Qcircuit document.

    Python lists are mutable objects; the rows of the circuit matrix are
    created by a list comprehension, so they are pairwise distinct objects
    and a reference to a row is modelled by its position in the matrix.
    Methods of [Circuit] are computations in a state-and-exception monad
    over the attributes of [self]. *)

From Stdlib Require Import ZArith String Ascii DecimalString Lia.
From stdpp Require Import base tactics option list strings.

Open Scope string_scope.
Open Scope list_scope.
Open Scope Z_scope.

(** ** Python values used by the module *)

Module Py.

(** The exceptions the module can raise: the two it declares, and the
    built-in ones raised by indexing, [str.split] and calls. *)
Inductive exn : Type :=
| IndexError
| ValueError
| TypeError
| UnsupportedGateException (msg : string)
| ModeMismatchException (msg : string).

Inductive outcome (A : Type) : Type :=
| Return (a : A)
| Raise (e : exn).
Arguments Return {A} a.
Arguments Raise {A} e.

(** A method body: it reads and writes the state [S] and either returns
    or raises; the state at the moment of the [raise] is kept, because
    mutations made before an exception are not rolled back. *)
Definition M (S A : Type) : Type := S -> outcome A * S.

Definition ret {S A} (a : A) : M S A := fun s => (Return a, s).

Definition bind {S A B} (m : M S A) (k : A -> M S B) : M S B :=
  fun s => match m s with
           | (Return a, s') => k a s'
           | (Raise e, s') => (Raise e, s')
           end.

Definition raise {S A} (e : exn) : M S A := fun s => (Raise e, s).
Definition gets {S A} (f : S -> A) : M S A := fun s => (Return (f s), s).
Definition modify {S} (f : S -> S) : M S unit := fun s => (Return tt, f s).

(** [o] when it is defined, otherwise [raise e]. *)
Definition or_raise {S A} (e : exn) (o : option A) : M S A :=
  match o with
  | Some a => ret a
  | None => raise e
  end.

(** [for x in l: body(x)] *)
Fixpoint for_ {S A} (l : list A) (body : A -> M S unit) : M S unit :=
  match l with
  | [] => ret tt
  | x :: l' => bind (body x) (fun _ => for_ l' body)
  end.

(** [str(n)] for an [int]. *)
Definition str_int (n : Z) : string := NilZero.string_of_int (Z.to_int n).

(** [str(x)] where [x] is [None] or an [int]. *)
Definition str_opt_int (x : option Z) : string :=
  match x with
  | None => "None"
  | Some n => str_int n
  end.

(** [sub in s] for two [str]: [sub] occurs in [s]. *)
Fixpoint str_in (sub s : string) : bool :=
  if String.prefix sub s then true
  else match s with
       | EmptyString => false
       | String _ s' => str_in sub s'
       end.

(** [s.split(sep)[0]]: the text of [s] before the first occurrence of
    [sep], all of [s] when there is none; an empty separator is a
    [ValueError]. *)
Fixpoint before_first (sep s : string) : string :=
  if String.prefix sep s then EmptyString
  else match s with
       | EmptyString => EmptyString
       | String c s' => String c (before_first sep s')
       end.

Definition split_head (sep s : string) : option string :=
  match sep with
  | EmptyString => None
  | _ => Some (before_first sep s)
  end.

(** The position that the index [i] denotes in a sequence of length [n]:
    a negative index counts from the end; [None] stands for the
    [IndexError] of an index out of range. *)
Definition index (n : nat) (i : Z) : option nat :=
  if (0 <=? i) && (i <? Z.of_nat n) then Some (Z.to_nat i)
  else if (- Z.of_nat n <=? i) && (i <? 0) then Some (Z.to_nat (i + Z.of_nat n))
  else None.

(** The position that a slice bound [i] denotes in a sequence of length
    [n]: negative bounds count from the end and every bound is clipped
    to [0..n]. *)
Definition slice_bound (n : nat) (i : Z) : nat :=
  Z.to_nat (Z.min (Z.of_nat n) (if i <? 0 then Z.max 0 (i + Z.of_nat n) else i)).

End Py.

Import Py.

Declare Scope py_scope.
Delimit Scope py_scope with py.
Notation "x <~ m ;; k" := (bind m (fun x => k))
  (at level 100, m at next level, right associativity) : py_scope.
Notation "m ;;; k" := (bind m (fun _ => k))
  (at level 100, right associativity) : py_scope.
Open Scope py_scope.

(** ** The LaTeX vocabulary *)

(** Modelled from the spec: the module [qcircuit_strings], from which the
    drawer imports its templates, is not among the sources.  The spec treats
    the templates as an opaque table keyed by role, so the table is a
    parameter of the development.  A template the code only ever uses
    through [.format] with one argument is the function of that argument. *)
Class qcircuit_strings : Type := {
  QUANTUM_WIRE : Z -> string;
  PAULI_X_COMP : string;
  PAULI_Z_COMP : string;
  CONTROL : Z -> string;
  TARGET : string;
  COLUMN_SPACING : Z -> string;
  ROW_SPACING : Z -> string;
  DOCUMENT_END : string;
  WIRE_OPERATION : string -> string;
  WIRE_TERMINATOR : string;
  CIRCUIT_BODY_TERMINATOR : string;
  CIRCUIT_BODY_START : string;
  INIT_DOCUMENT : string;
  PIPE : string;
  D_COMP : string;
  R_COMP : string;
  P_COMP : string;
  V_COMP : string;
  FOURIER_COMP : string;
  BS_COMP : string;
  S_COMP : string;
  K_COMP : string
}.

(** ** The class [Circuit] *)

(** The bound methods stored in the two gate tables. *)
Inductive method : Type :=
| meth_x | meth_z | meth_d | meth_s | meth_r | meth_p | meth_v | meth_k
| meth_fourier
| meth_cx | meth_cz | meth_ck | meth_bs | meth_s2.

(** The attributes of an instance.  The two tables are dictionaries that
    the code only iterates over, in insertion order. *)
Record Circuit : Type := {
  _document : string;
  _circuit_matrix : list (list string);
  _column_spacing : option Z;
  _row_spacing : option Z;
  single_mode_gates : list (string * method);
  two_mode_gates : list (string * method)
}.

Definition with_document (d : string) (self : Circuit) : Circuit :=
  {| _document := d;
     _circuit_matrix := _circuit_matrix self;
     _column_spacing := _column_spacing self;
     _row_spacing := _row_spacing self;
     single_mode_gates := single_mode_gates self;
     two_mode_gates := two_mode_gates self |}.

Definition with_matrix (m : list (list string)) (self : Circuit) : Circuit :=
  {| _document := _document self;
     _circuit_matrix := m;
     _column_spacing := _column_spacing self;
     _row_spacing := _row_spacing self;
     single_mode_gates := single_mode_gates self;
     two_mode_gates := two_mode_gates self |}.

(** An operator object as the drawer sees it: its [str] and the indices
    of the registers in [op.reg]. *)
Record operator : Type := {
  op_str : string;
  op_reg : list Z
}.

(** *** Cells of the circuit matrix *)

(** [matrix[wire]]: a reference to the row, or [IndexError]. *)
Definition matrix_getitem (wire : Z) : M Circuit nat :=
  matrix <~ gets _circuit_matrix ;;
  or_raise IndexError (index (length matrix) wire).

(** The rows that the slice [matrix[lo:hi]] holds, in order; an omitted
    bound is [None]. *)
Definition matrix_slice (lo hi : option Z) : M Circuit (list nat) :=
  matrix <~ gets _circuit_matrix ;;
  let n := length matrix in
  let start := from_option (slice_bound n) 0%nat lo in
  let stop := from_option (slice_bound n) n hi in
  ret (seq start (stop - start)).

(** The rows that a loop over the matrix visits, in order; under
    [enumerate] the position of a row is also its index. *)
Definition matrix_enumerate : M Circuit (list nat) :=
  matrix <~ gets _circuit_matrix ;;
  ret (seq 0 (length matrix)).

(** [wire_ops[-1]] for the row [wire_ops]; an empty row has no last cell. *)
Definition row_last (wire_ops : nat) : M Circuit string :=
  matrix <~ gets _circuit_matrix ;;
  or_raise IndexError (matrix !! wire_ops ≫= last).

(** [wire_ops[-1] = cell] *)
Definition row_set_last (wire_ops : nat) (cell : string) : M Circuit unit :=
  matrix <~ gets _circuit_matrix ;;
  match matrix !! wire_ops ≫= last with
  | Some _ =>
      modify (with_matrix
                (alter (fun row => <[pred (length row) := cell]> row) wire_ops matrix))
  | None => raise IndexError
  end.

(** [wire_ops.append(cell)] *)
Definition row_append (wire_ops : nat) (cell : string) : M Circuit unit :=
  modify (fun self =>
            with_matrix (alter (fun row => row ++ [cell]) wire_ops (_circuit_matrix self)) self).

Section Methods.
Context `{qcircuit_strings}.

(** *** Construction *)

Definition __init__ (wires : Z) : Circuit :=
  {| _document := "";
     _circuit_matrix := replicate (Z.to_nat wires) [QUANTUM_WIRE 1];
     _column_spacing := None;
     _row_spacing := None;
     single_mode_gates :=
       [("Xgate", meth_x); ("Zgate", meth_z); ("Dgate", meth_d);
        ("Sgate", meth_s); ("Rgate", meth_r); ("Pgate", meth_p);
        ("Vgate", meth_v); ("Kgate", meth_k); ("FourierGate", meth_fourier)];
     two_mode_gates :=
       [("CXgate", meth_cx); ("CZgate", meth_cz); ("CKgate", meth_ck);
        ("BSgate", meth_bs); ("S2gate", meth_s2)] |}.

(** *** Helpers *)

Definition _is_empty (op : string) : bool := String.eqb op (QUANTUM_WIRE 1).

(** The loop of [_on_empty_column] over the rows still to visit: it stops
    at the first row whose last cell is not an empty wire. *)
Fixpoint _on_empty_column_loop (rows : list nat) : M Circuit bool :=
  match rows with
  | [] => ret true
  | wire_ops :: rows' =>
      cell <~ row_last wire_ops ;;
      if negb (_is_empty cell) then ret false
      else _on_empty_column_loop rows'
  end.

Definition _on_empty_column : M Circuit bool :=
  rows <~ matrix_enumerate ;;
  _on_empty_column_loop rows.

Definition _add_column : M Circuit unit :=
  rows <~ matrix_enumerate ;;
  for_ rows (fun wire => row_append wire (QUANTUM_WIRE 1)).

(** *** Operation types *)

Definition _single_mode_gate (wire : Z) (circuit_op : string) : M Circuit unit :=
  wire_ops <~ matrix_getitem wire ;;
  cell <~ row_last wire_ops ;;
  if _is_empty cell then row_set_last wire_ops circuit_op
  else
    row_append wire_ops circuit_op ;;;
    prev <~ matrix_slice None (Some wire) ;;
    for_ prev (fun prev_wire => row_append prev_wire (QUANTUM_WIRE 1)) ;;;
    post <~ matrix_slice (Some (wire + 1)) None ;;
    for_ post (fun post_wire => row_append post_wire (QUANTUM_WIRE 1)).

(** The assignment [matrix[wire] = wire_ops] stores the row back where it
    was read, and [self._circuit_matrix = matrix] the matrix itself:
    neither changes the state. *)
Definition _multi_mode_gate (circuit_op : string) (wires : list Z) : M Circuit unit :=
  empty_column <~ _on_empty_column ;;
  (if negb empty_column then _add_column else ret tt) ;;;
  for_ wires (fun wire =>
    wire_ops <~ matrix_getitem wire ;;
    row_set_last wire_ops circuit_op).

Definition _controlled_mode_gate (source_wire target_wire : Z) (circuit_op : string)
  : M Circuit unit :=
  source_ops <~ matrix_getitem source_wire ;;
  target_ops <~ matrix_getitem target_wire ;;
  let distance := target_wire - source_wire in
  source_cell <~ row_last source_ops ;;
  both_empty <~ (if _is_empty source_cell
                 then (target_cell <~ row_last target_ops ;; ret (_is_empty target_cell))
                 else ret false) ;;
  if both_empty : bool then
    row_set_last source_ops (CONTROL distance) ;;;
    row_set_last target_ops circuit_op
  else
    rows <~ matrix_enumerate ;;
    for_ rows (fun index =>
      if Z.of_nat index =? source_wire then row_append index (CONTROL distance)
      else if Z.of_nat index =? target_wire then row_append index circuit_op
      else row_append index (QUANTUM_WIRE 1)).

(** *** Gates *)

Definition _x (wire : Z) := _single_mode_gate wire PAULI_X_COMP.
Definition _z (wire : Z) := _single_mode_gate wire PAULI_Z_COMP.
Definition _s (wire : Z) := _single_mode_gate wire S_COMP.
Definition _d (wire : Z) := _single_mode_gate wire D_COMP.
Definition _r (wire : Z) := _single_mode_gate wire R_COMP.
Definition _p (wire : Z) := _single_mode_gate wire P_COMP.
Definition _v (wire : Z) := _single_mode_gate wire V_COMP.
Definition _k (wire : Z) := _single_mode_gate wire K_COMP.
Definition _fourier (wire : Z) := _single_mode_gate wire FOURIER_COMP.

Definition _cx (source_wire target_wire : Z) :=
  _controlled_mode_gate source_wire target_wire TARGET.
Definition _cz (source_wire target_wire : Z) :=
  _controlled_mode_gate source_wire target_wire PAULI_Z_COMP.
Definition _ck (source_wire target_wire : Z) :=
  _controlled_mode_gate source_wire target_wire K_COMP.

Definition _bs (first_wire second_wire : Z) :=
  _multi_mode_gate BS_COMP [first_wire; second_wire].
Definition _s2 (first_wire second_wire : Z) :=
  _multi_mode_gate S_COMP [first_wire; second_wire].

(** The call of a stored method on the unpacked list of wires: a call with
    the wrong number of arguments is a [TypeError]. *)
Definition call (f : method) (wires : list Z) : M Circuit unit :=
  match wires with
  | [wire] =>
      match f with
      | meth_x => _x wire
      | meth_z => _z wire
      | meth_d => _d wire
      | meth_s => _s wire
      | meth_r => _r wire
      | meth_p => _p wire
      | meth_v => _v wire
      | meth_k => _k wire
      | meth_fourier => _fourier wire
      | _ => raise TypeError
      end
  | [wire1; wire2] =>
      match f with
      | meth_cx => _cx wire1 wire2
      | meth_cz => _cz wire1 wire2
      | meth_ck => _ck wire1 wire2
      | meth_bs => _bs wire1 wire2
      | meth_s2 => _s2 wire1 wire2
      | _ => raise TypeError
      end
  | _ => raise TypeError
  end.

(** *** Translation of operators *)

(** One pass of [for gate in table: if gate in operator: method = ...;
    mode = ...]: there is no [break], so the last matching key wins. *)
Definition scan_table (table : list (string * method)) (arity : Z) (operator : string)
  (found : option method * option Z) : option method * option Z :=
  fold_left (fun acc entry =>
               if str_in (fst entry) operator then (Some (snd entry), Some arity)
               else acc)
            table found.

Definition _gate_from_operator (op : operator) : M Circuit (option method * option Z) :=
  operator <~ or_raise ValueError (split_head PIPE (op_str op)) ;;
  two <~ gets two_mode_gates ;;
  let found := scan_table two 2 operator (None, None) in
  match fst found with
  | None =>
      single <~ gets single_mode_gates ;;
      ret (scan_table single 1 operator found)
  | Some _ => ret found
  end.

Definition parse_op (op : operator) : M Circuit unit :=
  found <~ _gate_from_operator op ;;
  let wires := op_reg op in
  match fst found with
  | None =>
      raise (UnsupportedGateException
               ("Unsupported operation " +:+ op_str op
                +:+ " not printable by circuit builder!"))
  | Some f =>
      if decide (snd found = Some (Z.of_nat (length wires))) then call f wires
      else
        raise (ModeMismatchException
                 (str_opt_int (snd found) +:+ " mode gate applied to "
                  +:+ str_int (Z.of_nat (length wires)) +:+ " wires!"))
  end.

(** *** Cosmetics *)



Definition _pad_with_spaces (s : string) : string := " " +:+ s +:+ " ".

(** *** LaTeX translation *)

(** [self._document += s] *)
Definition emit (s : string) : M Circuit unit :=
  modify (fun self => with_document (_document self +:+ s) self).

Definition _init_document : M Circuit unit := modify (with_document INIT_DOCUMENT).
Definition _end_document : M Circuit unit := emit DOCUMENT_END.
Definition _begin_circuit : M Circuit unit := emit CIRCUIT_BODY_START.
Definition _end_circuit : M Circuit unit := emit CIRCUIT_BODY_TERMINATOR.
Definition _end_wire : M Circuit unit := emit WIRE_TERMINATOR.

Definition _apply_spacing : M Circuit unit :=
  column <~ gets _column_spacing ;;
  match column with
  | Some spacing => emit (_pad_with_spaces (COLUMN_SPACING spacing))
  | None => ret tt
  end ;;;
  row <~ gets _row_spacing ;;
  match row with
  | Some spacing => emit (_pad_with_spaces (ROW_SPACING spacing))
  | None => ret tt
  end.

Definition _write_operation_to_document (operation : string) : M Circuit unit :=
  emit (_pad_with_spaces (WIRE_OPERATION operation)).

Definition dump_to_document : M Circuit string :=
  _init_document ;;;
  _apply_spacing ;;;
  _begin_circuit ;;;
  matrix <~ gets _circuit_matrix ;;
  for_ matrix (fun wire_ops =>
    for_ wire_ops _write_operation_to_document ;;;
    _end_wire) ;;;
  _end_circuit ;;;
  _end_document ;;;
  gets _document.

End Methods.

(** ** Shapes of the circuit matrix *)

(** The grid is rectangular: every wire has as many cells as the first. *)
Definition rectangular (matrix : list (list string)) : Prop :=
  Forall (fun row => length row = length (default [] (head matrix))) matrix.

#[global] Instance rectangular_dec matrix : Decision (rectangular matrix) :=
  Forall_dec _ matrix.

(** Every wire of [after] has [k] cells more than it has in [before]. *)
Definition widened (k : nat) (before after : list (list string)) : Prop :=
  forall i : nat,
    length <$> after !! i = (fun row => (length row + k)%nat) <$> before !! i.

(** The rows [rows], visited in order, each get the cell [cell_of row]
    appended. *)
Definition append_cells (cell_of : nat -> string) (rows : list nat)
  (matrix : list (list string)) : list (list string) :=
  fold_left (fun m row => alter (fun cells => cells ++ [cell_of row]) row m) rows matrix.

(** The cell that the overflow branch of [_controlled_mode_gate] appends to
    the row at position [index]. *)
Definition controlled_cell `{qcircuit_strings} (source_wire target_wire : Z)
  (circuit_op : string) (index : nat) : string :=
  if Z.of_nat index =? source_wire then CONTROL (target_wire - source_wire)
  else if Z.of_nat index =? target_wire then circuit_op
  else QUANTUM_WIRE 1.

(** The effect of an operation type on the state: from [self] it arrives
    at [result] having changed only the circuit matrix, every wire having
    got the same number [k] of new cells, and it returns or fails with a
    built-in exception. *)
Definition placed (self : Circuit) (result : outcome unit * Circuit) : Prop :=
  exists (k : nat) (matrix' : list (list string)),
    snd result = with_matrix matrix' self /\
    widened k (_circuit_matrix self) matrix' /\
    (fst result = Return tt \/ fst result = Raise IndexError
     \/ fst result = Raise TypeError).

Definition placement (m : M Circuit unit) : Prop :=
  forall self : Circuit, placed self (m self).

(** The circuits that a circuit constructed with [wires] wires goes through
    when it is fed operators that [parse_op] accepts. *)
Inductive reachable `{qcircuit_strings} (wires : Z) : Circuit -> Prop :=
| reachable_init : reachable wires (__init__ wires)
| reachable_step self op self' :
    reachable wires self ->
    parse_op op self = (Return tt, self') ->
    reachable wires self'.

(** The text that the spec has [serialize] produce for one wire: every cell
    wrapped and padded, in order, then the wire terminator. *)
Definition wire_text `{qcircuit_strings} (wire_ops : list string) : string :=
  fold_right String.append WIRE_TERMINATOR
    (map (fun cell => _pad_with_spaces (WIRE_OPERATION cell)) wire_ops).

(** The spacing directives: column spacing, then row spacing, each only
    when it is set. *)
Definition spacing_text `{qcircuit_strings} (self : Circuit) : string :=
  from_option (fun spacing => _pad_with_spaces (COLUMN_SPACING spacing)) ""
    (_column_spacing self)
  +:+ from_option (fun spacing => _pad_with_spaces (ROW_SPACING spacing)) ""
        (_row_spacing self).

(** The document of the spec: preamble, spacing, body start, the wires in
    index order, body end, document end. *)
Definition document_text `{qcircuit_strings} (self : Circuit) : string :=
  INIT_DOCUMENT +:+ spacing_text self +:+ CIRCUIT_BODY_START
  +:+ fold_right String.append "" (map wire_text (_circuit_matrix self))
  +:+ CIRCUIT_BODY_TERMINATOR +:+ DOCUMENT_END.

(** ** A concrete vocabulary *)

Definition newline : string := String (ascii_of_nat 10) "".

(** Modelled from the spec: a concrete table for [qcircuit_strings], which
    is not among the sources.  Each role of the spec's markup vocabulary
    gets the Qcircuit macro that the module's documentation names for it. *)
Definition qcircuit : qcircuit_strings :=
  {| QUANTUM_WIRE := fun n => "\qw[" +:+ str_int n +:+ "]";
     PAULI_X_COMP := "\gate{X}";
     PAULI_Z_COMP := "\gate{Z}";
     CONTROL := fun distance => "\ctrl{" +:+ str_int distance +:+ "}";
     TARGET := "\targ";
     COLUMN_SPACING := fun n => "@C=" +:+ str_int n;
     ROW_SPACING := fun n => "@R=" +:+ str_int n;
     DOCUMENT_END := "\end{document}";
     WIRE_OPERATION := fun cell => "& " +:+ cell;
     WIRE_TERMINATOR := "\\" +:+ newline;
     CIRCUIT_BODY_TERMINATOR := "}" +:+ newline;
     CIRCUIT_BODY_START := " {" +:+ newline;
     INIT_DOCUMENT :=
       "\documentclass{article}" +:+ newline +:+ "\input{Qcircuit}" +:+ newline
       +:+ "\begin{document}" +:+ newline +:+ "\Qcircuit";
     PIPE := "|";
     D_COMP := "\gate{D}";
     R_COMP := "\gate{R}";
     P_COMP := "\gate{P}";
     V_COMP := "\gate{V}";
     FOURIER_COMP := "\gate{F}";
     BS_COMP := "\gate{BS}";
     S_COMP := "\gate{S}";
     K_COMP := "\gate{K}" |}.

(** Operators as Strawberry Fields prints them. *)
Definition op_of (s : string) (reg : list Z) : operator :=
  {| op_str := s; op_reg := reg |}.

Definition three_wires : Circuit := @__init__ qcircuit 3.

(** A position displacement of mode 0. *)
Definition x_first : operator := op_of "Xgate(0.5) | (q[0])" [0].

(** Wire 0 of three holds a position displacement; the other wires are
    still empty. *)
Definition x_on_first : Circuit := snd (@parse_op qcircuit x_first three_wires).

(** A beamsplitter, which takes two modes, applied to one. *)
Definition bs_on_one : operator := op_of "BSgate(0.5, 0.1) | (q[0])" [0].

(** A two-mode squeezer applied to one mode. *)
Definition s2_on_one : operator := op_of "S2gate(0.5, 0.1) | (q[0])" [0].

(** A controlled X: its name holds the key of the single-mode X gate. *)
Definition cx_down : operator := op_of "CXgate(1) | (q[0], q[2])" [0; 2].
Definition cx_up : operator := op_of "CXgate(1) | (q[2], q[0])" [2; 0].

(** ** Further methods and shapes *)

(** [str(circuit)] *)
Definition __str__ : M Circuit string := gets _document.

(** The gate tables are the ones the constructor stores. *)
Definition constructor_tables `{qcircuit_strings} (self : Circuit) : Prop :=
  single_mode_gates self = single_mode_gates (__init__ 0) /\
  two_mode_gates self = two_mode_gates (__init__ 0).

(** A wire after a gate, against the wire before it: it is no shorter, and
    each old cell is where it was, unless it was an empty wire in the last
    place of the old wire. *)
Definition row_extends `{qcircuit_strings} (cells cells' : list string) : Prop :=
  (length cells <= length cells')%nat /\
  forall (column : nat) (cell : string),
    cells !! column = Some cell ->
    cells' !! column = Some cell \/
    (cell = QUANTUM_WIRE 1 /\ S column = length cells).

(** A matrix after a gate, against the matrix before it: the same wires,
    each extending what it was. *)
Definition history_kept `{qcircuit_strings} (before after : list (list string)) : Prop :=
  length after = length before /\
  forall (i : nat) (cells : list string),
    before !! i = Some cells ->
    exists cells', after !! i = Some cells' /\ row_extends cells cells'.

(** A measurement, which the drawer does not support. *)
Definition measure_fock : operator := op_of "MeasureFock() | (q[0])" [0].

(** An operator whose text holds two keys of the two-mode table. *)
Definition cx_and_bs : operator := op_of "CXgate(BSgate) | (q[0], q[1])" [0; 1].

(** ** Facts about the Python values *)

Lemma index_Some (n : nat) (i : Z) (r : nat) :
  index n i = Some r ->
  (r < n)%nat /\ (Z.of_nat r = i \/ Z.of_nat r = i + Z.of_nat n /\ i < 0).
Proof.
  unfold index. intros Hi.
  destruct ((0 <=? i) && (i <? Z.of_nat n)) eqn:E1.
  - apply andb_prop in E1 as [? ?]. simplify_eq. lia.
  - destruct ((- Z.of_nat n <=? i) && (i <? 0)) eqn:E2; [|done].
    apply andb_prop in E2 as [? ?]. simplify_eq. lia.
Qed.

Lemma index_in_range (n : nat) (i : Z) :
  0 <= i < Z.of_nat n -> index n i = Some (Z.to_nat i).
Proof.
  intros Hi. unfold index.
  destruct (Z.leb_spec 0 i); [|lia]. destruct (Z.ltb_spec i (Z.of_nat n)); [|lia].
  done.
Qed.

Lemma slice_bound_in_range (n : nat) (i : Z) :
  0 <= i <= Z.of_nat n -> slice_bound n i = Z.to_nat i.
Proof.
  intros Hi. unfold slice_bound. destruct (Z.ltb_spec i 0); lia.
Qed.

Lemma slice_bound_le (n : nat) (i : Z) : (slice_bound n i <= n)%nat.
Proof. unfold slice_bound. lia. Qed.

Lemma append_String (c : ascii) (s t : string) :
  String c s +:+ t = String c (s +:+ t).
Proof. reflexivity. Qed.

Lemma append_empty (t : string) : "" +:+ t = t.
Proof. reflexivity. Qed.

Lemma prefix_spec (sub s : string) :
  String.prefix sub s = true <-> exists rest, s = sub +:+ rest.
Proof.
  revert s. induction sub as [|a sub IH]; intros s; simpl.
  - split; [intros _; by exists s | intros _; by destruct s].
  - destruct s as [|b s]; simpl.
    + split; [done|]. intros [rest ?]. done.
    + destruct (Ascii.ascii_dec a b) as [->|Hab].
      * rewrite IH. split; intros [rest Hr]; exists rest;
          rewrite append_String in *; congruence.
      * split; [done|]. intros [rest Hr]. rewrite append_String in Hr. congruence.
Qed.

Lemma str_in_unfold (sub s : string) :
  str_in sub s =
  if String.prefix sub s then true
  else match s with
       | EmptyString => false
       | String _ s' => str_in sub s'
       end.
Proof. by destruct s. Qed.

(** [str_in] is the substring test. *)
Lemma str_in_spec (sub s : string) :
  str_in sub s = true <-> exists before after, s = before +:+ sub +:+ after.
Proof.
  induction s as [|c s IH]; rewrite str_in_unfold.
  - destruct (String.prefix sub "") eqn:E.
    + split; [intros _|done]. apply prefix_spec in E as [rest E].
      exists "", rest. by rewrite append_empty.
    + split; [done|]. intros (before & after & Hs).
      destruct before; [|by rewrite append_String in Hs].
      assert (String.prefix sub "" = true); [|congruence].
      apply prefix_spec. eauto.
  - destruct (String.prefix sub (String c s)) eqn:E.
    + split; [intros _|done]. apply prefix_spec in E as [rest E].
      exists "", rest. by rewrite append_empty.
    + rewrite IH. split.
      * intros (before & after & ->). by exists (String c before), after.
      * intros (before & after & Hs). destruct before as [|b before].
        -- assert (String.prefix sub (String c s) = true); [|congruence].
           apply prefix_spec. eauto.
        -- exists before, after. rewrite append_String in Hs. congruence.
Qed.

Lemma before_first_unfold (sep s : string) :
  before_first sep s =
  if String.prefix sep s then EmptyString
  else match s with
       | EmptyString => EmptyString
       | String c s' => String c (before_first sep s')
       end.
Proof. by destruct s. Qed.

(** Without an occurrence of the separator, the first piece of the split
    is the whole string. *)
Lemma before_first_without (sep s : string) :
  str_in sep s = false -> before_first sep s = s.
Proof.
  induction s as [|c s IH]; rewrite str_in_unfold, before_first_unfold.
  - by destruct (String.prefix sep "").
  - destruct (String.prefix sep (String c s)); [done|].
    intros Hs. by rewrite IH.
Qed.

(** The first piece of the split is a prefix of the string, followed by
    nothing or by the separator. *)
Lemma before_first_prefix (sep s : string) :
  exists rest,
    s = before_first sep s +:+ rest /\ (rest = "" \/ String.prefix sep rest = true).
Proof.
  induction s as [|c s IH]; rewrite before_first_unfold.
  - exists "". by destruct (String.prefix sep "") eqn:Hsep; auto.
  - destruct (String.prefix sep (String c s)) eqn:Hsep.
    + exists (String c s). auto.
    + destruct IH as (rest & Hs & Hrest). exists rest.
      rewrite append_String. by rewrite <- Hs.
Qed.

(** ** The monad *)

Lemma bind_Return {S A B} (m : M S A) (k : A -> M S B) (s s' : S) (a : A) :
  m s = (Return a, s') -> bind m k s = k a s'.
Proof. unfold bind. by intros ->. Qed.

Lemma bind_Raise {S A B} (m : M S A) (k : A -> M S B) (s s' : S) (e : exn) :
  m s = (Raise e, s') -> bind m k s = (Raise e, s').
Proof. unfold bind. by intros ->. Qed.

Lemma for_ext {S A} (l : list A) (f g : A -> M S unit) :
  (forall x s, f x s = g x s) -> forall s, for_ l f s = for_ l g s.
Proof.
  intros Hfg. induction l as [|x l IH]; intros s; simpl; [done|].
  unfold bind. rewrite Hfg. destruct (g x s) as [[[]|e] s']; auto.
Qed.

(** ** Rows and cells *)

Lemma append_cells_length cell_of rows (m : list (list string)) :
  length (append_cells cell_of rows m) = length m.
Proof.
  revert m. induction rows as [|r rows IH]; intros m; simpl; [done|].
  unfold append_cells in *. simpl. by rewrite IH, length_alter.
Qed.

(** Appending along a range of rows touches exactly the rows of the range. *)
Lemma append_cells_seq_lookup cell_of (a k : nat) (m : list (list string)) (i : nat) :
  append_cells cell_of (seq a k) m !! i =
  if decide (a <= i < a + k)%nat
  then (fun cells => cells ++ [cell_of i]) <$> m !! i
  else m !! i.
Proof.
  revert a m. induction k as [|k IH]; intros a m.
  - simpl. case_decide; [lia|done].
  - change (append_cells cell_of (seq a (S k)) m)
      with (append_cells cell_of (seq (S a) k)
              (alter (fun cells => cells ++ [cell_of a]) a m)).
    rewrite IH, list_lookup_alter.
    repeat case_decide; subst; try lia; done.
Qed.

Lemma with_matrix_matrix m self : _circuit_matrix (with_matrix m self) = m.
Proof. done. Qed.

Lemma with_matrix_twice m m' self :
  with_matrix m' (with_matrix m self) = with_matrix m' self.
Proof. done. Qed.

Lemma with_matrix_same self : with_matrix (_circuit_matrix self) self = self.
Proof. by destruct self. Qed.

Lemma for_row_append (cell_of : nat -> string) (rows : list nat) (self : Circuit) :
  for_ rows (fun row => row_append row (cell_of row)) self =
  (Return tt, with_matrix (append_cells cell_of rows (_circuit_matrix self)) self).
Proof.
  revert self. induction rows as [|r rows IH]; intros self; simpl.
  - unfold ret. by rewrite with_matrix_same.
  - unfold bind, row_append at 1, modify. rewrite IH. done.
Qed.

Lemma for_row_append_const (cell : string) (rows : list nat) (self : Circuit) :
  for_ rows (fun row => row_append row cell) self =
  (Return tt, with_matrix (append_cells (fun _ => cell) rows (_circuit_matrix self)) self).
Proof. apply (for_row_append (fun _ => cell)). Qed.

Lemma matrix_getitem_run (wire : Z) (self : Circuit) :
  matrix_getitem wire self =
  (match index (length (_circuit_matrix self)) wire with
   | Some row => Return row
   | None => Raise IndexError
   end, self).
Proof.
  unfold matrix_getitem, bind, gets, or_raise.
  by destruct (index _ wire).
Qed.

Lemma matrix_slice_run (lo hi : option Z) (self : Circuit) :
  matrix_slice lo hi self =
  (let n := length (_circuit_matrix self) in
   let start := from_option (slice_bound n) 0%nat lo in
   let stop := from_option (slice_bound n) n hi in
   Return (seq start (stop - start)), self).
Proof. done. Qed.

Lemma matrix_enumerate_run (self : Circuit) :
  matrix_enumerate self = (Return (seq 0 (length (_circuit_matrix self))), self).
Proof. done. Qed.

Lemma row_last_run (row : nat) (self : Circuit) :
  row_last row self =
  (match _circuit_matrix self !! row ≫= last with
   | Some cell => Return cell
   | None => Raise IndexError
   end, self).
Proof.
  unfold row_last, bind, gets, or_raise.
  by destruct (_ ≫= last).
Qed.

Lemma row_set_last_run (row : nat) (cell : string) (self : Circuit) :
  row_set_last row cell self =
  match _circuit_matrix self !! row ≫= last with
  | Some _ =>
      (Return tt,
       with_matrix (alter (fun cells => <[pred (length cells) := cell]> cells) row
                      (_circuit_matrix self)) self)
  | None => (Raise IndexError, self)
  end.
Proof.
  unfold row_set_last, bind, gets.
  by destruct (_ ≫= last).
Qed.

Lemma row_append_run (row : nat) (cell : string) (self : Circuit) :
  row_append row cell self =
  (Return tt,
   with_matrix (alter (fun cells => cells ++ [cell]) row (_circuit_matrix self)) self).
Proof. done. Qed.

(** ** Rectangular matrices *)

Lemma rectangular_lookup (m : list (list string)) :
  rectangular m <->
  forall (i j : nat) ri rj, m !! i = Some ri -> m !! j = Some rj -> length ri = length rj.
Proof.
  unfold rectangular. rewrite Forall_lookup. split.
  - intros Hm i j ri rj Hi Hj.
    rewrite (Hm i ri Hi), (Hm j rj Hj). done.
  - intros Hm i ri Hi. destruct m as [|r0 m]; [done|].
    simpl. by apply (Hm i 0%nat).
Qed.

Lemma widened_refl (m : list (list string)) : widened 0 m m.
Proof.
  intros i. destruct (m !! i); simpl; [|done]. f_equal. lia.
Qed.

Lemma widened_trans (k1 k2 : nat) (m1 m2 m3 : list (list string)) :
  widened k1 m1 m2 -> widened k2 m2 m3 -> widened (k1 + k2) m1 m3.
Proof.
  intros H12 H23 i. specialize (H12 i). specialize (H23 i).
  destruct (m1 !! i), (m2 !! i), (m3 !! i); simplify_eq/=; [|done].
  f_equal. lia.
Qed.

(** Widening every wire by the same amount keeps the grid rectangular. *)
Lemma widened_rectangular (k : nat) (m m' : list (list string)) :
  widened k m m' -> rectangular m -> rectangular m'.
Proof.
  rewrite !rectangular_lookup. intros Hw Hm i j ri rj Hi Hj.
  pose proof (Hw i) as Hwi. pose proof (Hw j) as Hwj.
  rewrite Hi in Hwi. rewrite Hj in Hwj.
  destruct (m !! i) as [ri0|] eqn:Hi0; [|done].
  destruct (m !! j) as [rj0|] eqn:Hj0; [|done].
  simplify_eq/=. rewrite (Hm i j ri0 rj0) in Hwi by done. lia.
Qed.

(** Overwriting the last cell of a row changes no length. *)
Lemma set_last_widened (cell : string) (row : nat) (m : list (list string)) :
  widened 0 m (alter (fun cells => <[pred (length cells) := cell]> cells) row m).
Proof.
  intros i. rewrite list_lookup_alter.
  case_decide; subst; destruct (m !! i); simpl; try done;
    f_equal; rewrite ?length_insert; lia.
Qed.

(** Overwriting the last cell of a row leaves no row without a last cell. *)
Lemma set_last_last (cell : string) (row : nat) (m : list (list string)) (i : nat) :
  is_Some (m !! i ≫= last) ->
  is_Some (alter (fun cells => <[pred (length cells) := cell]> cells) row m !! i ≫= last).
Proof.
  rewrite list_lookup_alter. case_decide; subst; [|done].
  destruct (m !! i) as [cells|]; simpl; [|done].
  intros [c Hc]. apply not_eq_None_Some. rewrite last_None. intros Hnil.
  apply (f_equal length) in Hnil. rewrite length_insert in Hnil.
  destruct cells; simplify_eq/=.
Qed.

Section Strategies.
Context `{qcircuit_strings}.

(** ** What each operation type does to the state *)

(** [_single_mode_gate], with its two loops over slices written as
    appends along ranges of rows. *)
Lemma _single_mode_gate_run (wire : Z) (circuit_op : string) (self : Circuit) :
  _single_mode_gate wire circuit_op self =
  let matrix := _circuit_matrix self in
  let n := length matrix in
  match index n wire with
  | None => (Raise IndexError, self)
  | Some row =>
      match matrix !! row ≫= last with
      | None => (Raise IndexError, self)
      | Some cell =>
          if _is_empty cell then
            (Return tt,
             with_matrix
               (alter (fun cells => <[pred (length cells) := circuit_op]> cells) row matrix)
               self)
          else
            let start := slice_bound n (wire + 1) in
            (Return tt,
             with_matrix
               (append_cells (fun _ => QUANTUM_WIRE 1) (seq start (n - start))
                  (append_cells (fun _ => QUANTUM_WIRE 1) (seq 0 (slice_bound n wire))
                     (alter (fun cells => cells ++ [circuit_op]) row matrix)))
               self)
      end
  end.
Proof.
  unfold _single_mode_gate. cbv zeta.
  unfold bind at 1. rewrite matrix_getitem_run.
  destruct (index _ wire) as [row|]; [|done].
  unfold bind at 1. rewrite row_last_run.
  destruct (_ ≫= last) as [cell|] eqn:Hlast; [|done].
  destruct (_is_empty cell).
  - by rewrite row_set_last_run, Hlast.
  - unfold bind at 1. rewrite row_append_run.
    unfold bind at 1. rewrite matrix_slice_run. cbv beta iota zeta. simpl from_option.
    unfold bind at 1. rewrite for_row_append_const.
    unfold bind at 1. rewrite matrix_slice_run. cbv beta iota zeta. simpl from_option.
    rewrite for_row_append_const.
    rewrite !with_matrix_matrix, !with_matrix_twice.
    rewrite !append_cells_length, !length_alter.
    by rewrite Nat.sub_0_r.
Qed.


(** After the three appends of the overflow branch, row [i] holds its old
    cells, then the operator if it is the gate's row, then one empty wire
    for each of the two slices it lies in. *)
Lemma overflow_lookup (circuit_op : string) (row stop start : nat)
  (m : list (list string)) (i : nat) :
  (start <= length m)%nat ->
  append_cells (fun _ => QUANTUM_WIRE 1) (seq start (length m - start))
    (append_cells (fun _ => QUANTUM_WIRE 1) (seq 0 stop)
       (alter (fun cells => cells ++ [circuit_op]) row m)) !! i =
  (fun cells =>
     cells ++ (if decide (row = i) then [circuit_op] else [])
           ++ (if decide (i < stop)%nat then [QUANTUM_WIRE 1] else [])
           ++ (if decide (start <= i)%nat then [QUANTUM_WIRE 1] else []))
  <$> m !! i.
Proof.
  intros Hstart.
  rewrite !append_cells_seq_lookup, list_lookup_alter.
  destruct (m !! i) as [cells|] eqn:Hi.
  - pose proof (lookup_lt_Some _ _ _ Hi).
    repeat case_decide; subst; try lia; rewrite ?Hi; simpl;
      rewrite ?app_nil_r, <- ?app_assoc; simpl; try done.
  - repeat case_decide; subst; rewrite ?Hi; done.
Qed.


(** The overflow branch gives every wire the same number of new cells: one,
    or two when the wire is addressed as [-1], because the slice
    [matrix[wire + 1:]] is then the whole matrix. *)
Lemma overflow_widened (circuit_op : string) (wire : Z) (row : nat)
  (m : list (list string)) :
  index (length m) wire = Some row ->
  let n := length m in
  let start := slice_bound n (wire + 1) in
  widened (if decide (wire = -1) then 2 else 1) m
    (append_cells (fun _ => QUANTUM_WIRE 1) (seq start (n - start))
       (append_cells (fun _ => QUANTUM_WIRE 1) (seq 0 (slice_bound n wire))
          (alter (fun cells => cells ++ [circuit_op]) row m))).
Proof.
  intros Hrow n start i. subst n start.
  rewrite overflow_lookup by apply slice_bound_le.
  destruct (m !! i) as [cells|] eqn:Hi; simpl; [|done].
  apply lookup_lt_Some in Hi. apply index_Some in Hrow as [Hlt Hrow].
  f_equal. rewrite !length_app.
  unfold slice_bound.
  destruct (Z.ltb_spec wire 0), (Z.ltb_spec (wire + 1) 0);
    repeat case_decide; simpl; lia.
Qed.

Lemma placed_raise (self : Circuit) (e : exn) :
  e = IndexError \/ e = TypeError -> placed self (Raise e, self).
Proof.
  intros He. exists 0%nat, (_circuit_matrix self). simpl.
  rewrite with_matrix_same. split; [done|]. split; [apply widened_refl|].
  destruct He; subst; auto.
Qed.

Lemma placed_return (self : Circuit) (k : nat) (matrix' : list (list string)) :
  widened k (_circuit_matrix self) matrix' ->
  placed self (Return tt, with_matrix matrix' self).
Proof. intros Hw. exists k, matrix'. auto. Qed.

Lemma _single_mode_gate_placement (wire : Z) (circuit_op : string) :
  placement (_single_mode_gate wire circuit_op).
Proof.
  intros self. rewrite _single_mode_gate_run. cbv zeta.
  destruct (index _ wire) as [row|] eqn:Hrow; [|apply placed_raise; auto].
  destruct (_ ≫= last) as [cell|]; [|apply placed_raise; auto].
  destruct (_is_empty cell).
  - eapply placed_return, set_last_widened.
  - eapply placed_return. by apply overflow_widened.
Qed.

(** [_controlled_mode_gate], with its loop over the enumerated matrix
    written as one append along all rows. *)
Lemma _controlled_mode_gate_run (source_wire target_wire : Z) (circuit_op : string)
  (self : Circuit) :
  _controlled_mode_gate source_wire target_wire circuit_op self =
  let matrix := _circuit_matrix self in
  let n := length matrix in
  let distance := target_wire - source_wire in
  let new_column :=
    append_cells (controlled_cell source_wire target_wire circuit_op) (seq 0 n) matrix in
  match index n source_wire, index n target_wire with
  | Some source_ops, Some target_ops =>
      match matrix !! source_ops ≫= last with
      | None => (Raise IndexError, self)
      | Some source_cell =>
          if _is_empty source_cell then
            match matrix !! target_ops ≫= last with
            | None => (Raise IndexError, self)
            | Some target_cell =>
                if _is_empty target_cell then
                  (Return tt,
                   with_matrix
                     (alter (fun cells => <[pred (length cells) := circuit_op]> cells)
                        target_ops
                        (alter (fun cells => <[pred (length cells) := CONTROL distance]> cells)
                           source_ops matrix))
                     self)
                else (Return tt, with_matrix new_column self)
            end
          else (Return tt, with_matrix new_column self)
      end
  | _, _ => (Raise IndexError, self)
  end.
Proof.
  assert (forall self : Circuit,
    (rows <~ matrix_enumerate ;;
     for_ rows (fun index =>
       if Z.of_nat index =? source_wire
       then row_append index (CONTROL (target_wire - source_wire))
       else if Z.of_nat index =? target_wire then row_append index circuit_op
       else row_append index (QUANTUM_WIRE 1))) self =
    (Return tt,
     with_matrix
       (append_cells (controlled_cell source_wire target_wire circuit_op)
          (seq 0 (length (_circuit_matrix self))) (_circuit_matrix self)) self))
    as Hloop.
  { intros s. unfold bind at 1. rewrite matrix_enumerate_run.
    rewrite <- for_row_append. apply for_ext. intros index s'.
    unfold controlled_cell.
    by destruct (Z.of_nat index =? source_wire), (Z.of_nat index =? target_wire). }
  unfold _controlled_mode_gate. cbv zeta.
  unfold bind at 1. rewrite matrix_getitem_run.
  destruct (index _ source_wire) as [source_ops|]; [|done].
  unfold bind at 1. rewrite matrix_getitem_run.
  destruct (index _ target_wire) as [target_ops|]; [|done].
  unfold bind at 1. rewrite row_last_run.
  destruct (_ ≫= last) as [source_cell|] eqn:Hsource; [|done].
  destruct (_is_empty source_cell).
  - unfold bind at 1. unfold bind at 1. rewrite row_last_run.
    destruct (_ !! target_ops ≫= last) as [target_cell|] eqn:Htarget; [|done].
    unfold ret. destruct (_is_empty target_cell).
    + unfold bind. rewrite row_set_last_run, Hsource.
      rewrite row_set_last_run, with_matrix_matrix.
      destruct (set_last_last (CONTROL (target_wire - source_wire)) source_ops
                  (_circuit_matrix self) target_ops) as [c ->]; [by eexists|].
      by rewrite with_matrix_twice.
    + apply Hloop.
  - unfold bind at 1. unfold ret. apply Hloop.
Qed.


(** A new column: one cell more on every wire. *)
Lemma new_column_widened (cell_of : nat -> string) (m : list (list string)) :
  widened 1 m (append_cells cell_of (seq 0 (length m)) m).
Proof.
  intros i. rewrite append_cells_seq_lookup.
  destruct (m !! i) as [cells|] eqn:Hi; [|by case_decide].
  apply lookup_lt_Some in Hi. case_decide; [|lia].
  simpl. by rewrite length_app.
Qed.

Lemma new_column_lookup (cell_of : nat -> string) (m : list (list string)) (i : nat) :
  append_cells cell_of (seq 0 (length m)) m !! i =
  (fun cells => cells ++ [cell_of i]) <$> m !! i.
Proof.
  rewrite append_cells_seq_lookup.
  destruct (m !! i) as [cells|] eqn:Hi; [|by case_decide].
  apply lookup_lt_Some in Hi. case_decide; [done|lia].
Qed.

Lemma _controlled_mode_gate_placement (source_wire target_wire : Z) (circuit_op : string) :
  placement (_controlled_mode_gate source_wire target_wire circuit_op).
Proof.
  intros self. rewrite _controlled_mode_gate_run. cbv zeta.
  destruct (index _ source_wire) as [source_ops|]; [|apply placed_raise; auto].
  destruct (index _ target_wire) as [target_ops|]; [|apply placed_raise; auto].
  destruct (_ ≫= last) as [source_cell|]; [|apply placed_raise; auto].
  destruct (_is_empty source_cell); [|eapply placed_return, new_column_widened].
  destruct (_ ≫= last) as [target_cell|]; [|apply placed_raise; auto].
  destruct (_is_empty target_cell); [|eapply placed_return, new_column_widened].
  eapply placed_return, (widened_trans 0 0); apply set_last_widened.
Qed.

(** *** The column test and the loop of [_multi_mode_gate] *)

Lemma _on_empty_column_loop_state (rows : list nat) (self : Circuit) :
  snd (_on_empty_column_loop rows self) = self /\
  (forall e, fst (_on_empty_column_loop rows self) = Raise e -> e = IndexError).
Proof.
  induction rows as [|r rows IH]; simpl; [done|].
  unfold bind. rewrite row_last_run.
  destruct (_ ≫= last) as [cell|]; [|split; [done|]; simpl; congruence].
  destruct (_is_empty cell); simpl; [done|]. split; [done|]. done.
Qed.

Lemma _on_empty_column_state (self : Circuit) :
  snd (_on_empty_column self) = self /\
  (forall e, fst (_on_empty_column self) = Raise e -> e = IndexError).
Proof.
  unfold _on_empty_column, bind. rewrite matrix_enumerate_run.
  apply _on_empty_column_loop_state.
Qed.

(** With a last cell on every wire, the column test returns whether all
    of them are empty wires. *)
Lemma _on_empty_column_loop_run (a k : nat) (self : Circuit) :
  (a + k)%nat = length (_circuit_matrix self) ->
  Forall (fun cells => cells <> []) (_circuit_matrix self) ->
  _on_empty_column_loop (seq a k) self =
  (Return (forallb (fun cells => from_option _is_empty false (last cells))
             (drop a (_circuit_matrix self))), self).
Proof.
  intros Hlen Hrows. revert a Hlen. induction k as [|k IH]; intros a Hlen.
  - simpl. rewrite drop_ge by lia. done.
  - simpl. unfold bind. rewrite row_last_run.
    destruct (_circuit_matrix self !! a) as [cells|] eqn:Ha.
    2: { apply lookup_ge_None in Ha. lia. }
    rewrite (drop_S _ _ _ Ha). simpl.
    destruct (last cells) as [cell|] eqn:Hcell.
    2: { apply last_None in Hcell. rewrite Forall_lookup in Hrows.
         by destruct (Hrows a cells Ha). }
    simpl. destruct (_is_empty cell); simpl; [|done].
    apply IH. lia.
Qed.

Lemma _on_empty_column_run (self : Circuit) :
  Forall (fun cells => cells <> []) (_circuit_matrix self) ->
  _on_empty_column self =
  (Return (forallb (fun cells => from_option _is_empty false (last cells))
             (_circuit_matrix self)), self).
Proof.
  intros Hrows. unfold _on_empty_column, bind. rewrite matrix_enumerate_run.
  by rewrite _on_empty_column_loop_run.
Qed.

Lemma _add_column_run (self : Circuit) :
  _add_column self =
  (Return tt,
   with_matrix
     (append_cells (fun _ => QUANTUM_WIRE 1) (seq 0 (length (_circuit_matrix self)))
        (_circuit_matrix self)) self).
Proof.
  unfold _add_column, bind. rewrite matrix_enumerate_run.
  apply for_row_append_const.
Qed.


Lemma placed_trans (self : Circuit) (k : nat) (matrix' : list (list string))
  (result : outcome unit * Circuit) :
  widened k (_circuit_matrix self) matrix' ->
  placed (with_matrix matrix' self) result -> placed self result.
Proof.
  intros Hw (k' & m'' & Hstate & Hw' & Hout).
  exists (k + k')%nat, m''. rewrite with_matrix_twice in Hstate.
  eauto using widened_trans.
Qed.

Lemma set_last_loop_placed (circuit_op : string) (wires : list Z) (self : Circuit) :
  placed self
    (for_ wires (fun wire =>
       wire_ops <~ matrix_getitem wire ;; row_set_last wire_ops circuit_op) self).
Proof.
  revert self. induction wires as [|wire wires IH]; intros self; simpl.
  - rewrite <- (with_matrix_same self) at 2. eapply placed_return, widened_refl.
  - unfold bind at 1. unfold bind at 1. rewrite matrix_getitem_run.
    destruct (index _ wire) as [wire_ops|]; [|apply placed_raise; auto].
    rewrite row_set_last_run.
    destruct (_ ≫= last); [|apply placed_raise; auto].
    eapply placed_trans; [apply set_last_widened|apply IH].
Qed.

Lemma _multi_mode_gate_placement (circuit_op : string) (wires : list Z) :
  placement (_multi_mode_gate circuit_op wires).
Proof.
  intros self. unfold _multi_mode_gate. unfold bind at 1.
  destruct (_on_empty_column_state self) as [Hstate Hexn].
  destruct (_on_empty_column self) as [[empty_column|e] self'];
    simpl in Hstate; subst self'.
  2: { apply placed_raise. left. by apply Hexn. }
  unfold bind at 1. destruct empty_column; simpl.
  - apply set_last_loop_placed.
  - rewrite _add_column_run.
    eapply placed_trans; [apply new_column_widened|apply set_last_loop_placed].
Qed.

(** On valid wires of a matrix without empty rows, the loop of
    [_multi_mode_gate] returns, having overwritten the last cell of the
    rows it names and of no other. *)
Lemma set_last_loop_run (circuit_op : string) (wires : list Z) (self : Circuit) :
  Forall (fun cells => cells <> []) (_circuit_matrix self) ->
  Forall (fun wire => 0 <= wire < Z.of_nat (length (_circuit_matrix self))) wires ->
  exists matrix',
    for_ wires (fun wire =>
      wire_ops <~ matrix_getitem wire ;; row_set_last wire_ops circuit_op) self =
    (Return tt, with_matrix matrix' self) /\
    forall i : nat,
      matrix' !! i =
      (fun cells =>
         if decide (Z.of_nat i ∈ wires)
         then <[pred (length cells) := circuit_op]> cells
         else cells) <$> _circuit_matrix self !! i.
Proof.
  revert self. induction wires as [|wire wires IH]; intros self Hrows Hwires; simpl.
  - exists (_circuit_matrix self). unfold ret. rewrite with_matrix_same.
    split; [done|]. intros i. by destruct (_ !! i).
  - apply Forall_cons in Hwires as [Hwire Hwires].
    unfold bind at 1. unfold bind at 1.
    rewrite matrix_getitem_run, (index_in_range _ _ Hwire).
    rewrite row_set_last_run.
    destruct (_circuit_matrix self !! Z.to_nat wire) as [cells|] eqn:Hcells.
    2: { apply lookup_ge_None in Hcells. lia. }
    simpl. destruct (last cells) eqn:Hlast.
    2: { apply last_None in Hlast. rewrite Forall_lookup in Hrows.
         by destruct (Hrows _ _ Hcells). }
    set (self1 := with_matrix _ self).
    destruct (IH self1) as (matrix' & Hrun & Hlookup).
    { subst self1. rewrite with_matrix_matrix. apply Forall_alter; [done|].
      intros row _ Hrow Hnil. apply (f_equal length) in Hnil.
      rewrite length_insert in Hnil. by destruct row. }
    { subst self1. by rewrite with_matrix_matrix, length_alter. }
    exists matrix'. rewrite Hrun. subst self1. rewrite with_matrix_twice.
    split; [done|]. intros i. rewrite Hlookup, with_matrix_matrix, list_lookup_alter.
    destruct (decide (Z.to_nat wire = i)) as [<-|Hne].
    + rewrite Hcells. simpl. rewrite Z2Nat.id by lia.
      rewrite (decide_True _ _ (list_elem_of_here wire wires)).
      case_decide; [|done].
      by rewrite length_insert, list_insert_insert_eq.
    + destruct (_ !! i); simpl; [|done]. f_equal.
      destruct (decide (Z.of_nat i ∈ wires)) as [Hin|Hin].
      * by rewrite decide_True by (by right).
      * rewrite decide_False; [done|].
        rewrite elem_of_cons. intros [?|?]; [lia|done].
Qed.

Lemma column_empty_Forall (matrix : list (list string)) :
  forallb (fun cells => from_option _is_empty false (last cells)) matrix = true <->
  Forall (fun cells => last cells = Some (QUANTUM_WIRE 1)) matrix.
Proof.
  induction matrix as [|cells matrix IH]; simpl.
  - split; [constructor|done].
  - rewrite andb_true_iff, Forall_cons, IH.
    destruct (last cells) as [cell|]; simpl.
    + unfold _is_empty. rewrite String.eqb_eq.
      split; intros [Hcell Hrest]; split; congruence.
    + split; intros [Hcell Hrest]; done.
Qed.

(** Every stored method is a placement, whatever it is called on. *)
Lemma call_placement (f : method) (wires : list Z) : placement (call f wires).
Proof.
  intros self.
  destruct wires as [|wire1 [|wire2 [|wire3 wires]]];
    try (apply placed_raise; auto);
    destruct f; try (apply placed_raise; auto);
    first [apply _single_mode_gate_placement
          |apply _controlled_mode_gate_placement
          |apply _multi_mode_gate_placement].
Qed.

Lemma placed_rectangular (self : Circuit) (result : outcome unit * Circuit) :
  placed self result ->
  rectangular (_circuit_matrix self) -> rectangular (_circuit_matrix (snd result)).
Proof.
  intros (k & matrix' & -> & Hw & _). apply (widened_rectangular _ _ _ Hw).
Qed.

End Strategies.

Section Translation.
Context `{qcircuit_strings}.

(** ** Classification of operators *)

(** A key of [table] occurs in [operator]. *)
Lemma scan_table_match (table : list (string * method)) (arity : Z) (operator : string)
  (found : option method * option Z) :
  Exists (fun entry => str_in (fst entry) operator = true) table ->
  exists key f,
    (key, f) ∈ table /\ str_in key operator = true /\
    scan_table table arity operator found = (Some f, Some arity).
Proof.
  unfold scan_table. induction table as [|[key f] table IH] using rev_ind.
  - intros Hex. by apply Exists_nil in Hex.
  - intros Hex. rewrite fold_left_app. simpl.
    destruct (str_in key operator) eqn:Hkey.
    + exists key, f. rewrite elem_of_app, list_elem_of_singleton. auto.
    + apply Exists_app in Hex as [Hex|Hex].
      * destruct (IH Hex) as (key' & f' & Hin & Hmatch & Hscan).
        exists key', f'. rewrite elem_of_app. auto.
      * apply Exists_cons in Hex as [Hex|Hex]; simpl in Hex; [congruence|].
        by apply Exists_nil in Hex.
Qed.

(** No key of [table] occurs in [operator]. *)
Lemma scan_table_no_match (table : list (string * method)) (arity : Z) (operator : string)
  (found : option method * option Z) :
  ~ Exists (fun entry => str_in (fst entry) operator = true) table ->
  scan_table table arity operator found = found.
Proof.
  unfold scan_table. revert found.
  induction table as [|[key f] table IH]; intros found Hno; simpl; [done|].
  destruct (str_in key operator) eqn:Hkey.
  - destruct Hno. by left.
  - apply IH. intros Hex. destruct Hno. by right.
Qed.

Lemma _gate_from_operator_run (op : operator) (self : Circuit) :
  _gate_from_operator op self =
  (match split_head PIPE (op_str op) with
   | None => Raise ValueError
   | Some operator =>
       let found := scan_table (two_mode_gates self) 2 operator (None, None) in
       Return (match fst found with
               | None => scan_table (single_mode_gates self) 1 operator found
               | Some _ => found
               end)
   end, self).
Proof.
  unfold _gate_from_operator, bind, or_raise, gets, ret, raise.
  destruct (split_head _ _) as [operator|]; [|done].
  cbv zeta. by destruct (fst (scan_table _ _ _ _)).
Qed.

(** [parse_op] leaves the state alone until it calls the method. *)
Lemma parse_op_run (op : operator) (self : Circuit) :
  parse_op op self =
  match fst (_gate_from_operator op self) with
  | Raise e => (Raise e, self)
  | Return (None, _) =>
      (Raise (UnsupportedGateException
                ("Unsupported operation " +:+ op_str op
                 +:+ " not printable by circuit builder!")), self)
  | Return (Some f, mode) =>
      if decide (mode = Some (Z.of_nat (length (op_reg op))))
      then call f (op_reg op) self
      else (Raise (ModeMismatchException
                     (str_opt_int mode +:+ " mode gate applied to "
                      +:+ str_int (Z.of_nat (length (op_reg op))) +:+ " wires!")),
            self)
  end.
Proof.
  unfold parse_op. unfold bind at 1. rewrite _gate_from_operator_run.
  destruct (split_head _ _) as [operator|]; [|done].
  cbv zeta. simpl fst.
  match goal with |- context [Return ?found] => destruct found as [[f|] mode] end;
    simpl; [|done].
  by case_decide.
Qed.

(** Whatever comes of [parse_op], the state it leaves is the one a
    placement leaves. *)
Lemma parse_op_state (op : operator) (self : Circuit) :
  exists (k : nat) (matrix' : list (list string)),
    snd (parse_op op self) = with_matrix matrix' self /\
    widened k (_circuit_matrix self) matrix'.
Proof.
  assert (forall e : exn,
             exists (k : nat) (matrix' : list (list string)),
               snd (Raise e : outcome unit, self) = with_matrix matrix' self /\
               widened k (_circuit_matrix self) matrix') as Hraise.
  { intros e. exists 0%nat, (_circuit_matrix self). simpl.
    rewrite with_matrix_same. split; [done|apply widened_refl]. }
  rewrite parse_op_run.
  destruct (fst (_gate_from_operator op self)) as [[[f|] mode]|e]; [|done..].
  case_decide; [|done].
  destruct (call_placement f (op_reg op) self) as (k & matrix' & ? & ? & _).
  eauto.
Qed.

(** The two exceptions of the module come from [parse_op] itself, never
    from the method it calls. *)
Lemma parse_op_own_exception (op : operator) (self self' : Circuit) (e : exn) :
  parse_op op self = (Raise e, self') ->
  e <> IndexError -> e <> TypeError -> self' = self.
Proof.
  rewrite parse_op_run. intros Hrun Hindex Htype.
  destruct (fst (_gate_from_operator op self)) as [[[f|] mode]|e'];
    [|by simplify_eq..].
  case_decide; [|by simplify_eq].
  destruct (call_placement f (op_reg op) self) as (k & matrix' & _ & _ & Hout).
  rewrite Hrun in Hout. simpl in Hout.
  destruct Hout as [?|[?|?]]; simplify_eq.
Qed.

End Translation.

Section Document.
Context `{qcircuit_strings}.

(** ** The document *)

Lemma append_assoc (s t u : string) : (s +:+ t) +:+ u = s +:+ t +:+ u.
Proof.
  induction s as [|c s IH]; [done|].
  rewrite !append_String. by rewrite IH.
Qed.

Lemma append_empty_r (s : string) : s +:+ "" = s.
Proof.
  induction s as [|c s IH]; [done|].
  rewrite append_String. by rewrite IH.
Qed.

Lemma with_document_twice (d d' : string) (self : Circuit) :
  with_document d' (with_document d self) = with_document d' self.
Proof. done. Qed.

Lemma emit_run (s : string) (self : Circuit) :
  emit s self = (Return tt, with_document (_document self +:+ s) self).
Proof. done. Qed.

(** Writing the cells of one wire, then its terminator, appends the text
    of the wire. *)
Lemma write_wire (wire_ops : list string) (self : Circuit) :
  (for_ wire_ops _write_operation_to_document ;;; _end_wire) self =
  (Return tt, with_document (_document self +:+ wire_text wire_ops) self).
Proof.
  revert self. induction wire_ops as [|cell wire_ops IH]; intros self.
  - done.
  - unfold bind in *. simpl. unfold bind.
    unfold _write_operation_to_document at 1. rewrite emit_run.
    specialize (IH (with_document
                      (_document self +:+ _pad_with_spaces (WIRE_OPERATION cell)) self)).
    destruct (for_ wire_ops _ _) as [[[]|e] self'].
    + rewrite IH. simpl. by rewrite with_document_twice, append_assoc.
    + done.
Qed.

(** Writing the wires in order appends their texts in order. *)
Lemma write_wires (matrix : list (list string)) (self : Circuit) :
  for_ matrix (fun wire_ops =>
    for_ wire_ops _write_operation_to_document ;;; _end_wire) self =
  (Return tt,
   with_document (_document self +:+ fold_right String.append "" (map wire_text matrix))
     self).
Proof.
  revert self. induction matrix as [|wire_ops matrix IH]; intros self; simpl.
  - rewrite append_empty_r. by destruct self.
  - unfold bind at 1. rewrite write_wire, IH. simpl.
    by rewrite with_document_twice, append_assoc.
Qed.

Lemma _apply_spacing_run (self : Circuit) :
  _apply_spacing self =
  (Return tt, with_document (_document self +:+ spacing_text self) self).
Proof.
  unfold _apply_spacing, spacing_text, bind, gets, ret.
  destruct self as [d m [column|] [row|] single two]; simpl;
    rewrite ?emit_run; simpl; unfold with_document; simpl;
    by rewrite ?append_assoc, ?append_empty_r, ?append_empty.
Qed.

(** [dump_to_document] returns the document of the spec and stores it in
    [_document]; nothing else changes. *)
Lemma dump_to_document_run (self : Circuit) :
  dump_to_document self =
  (Return (document_text self), with_document (document_text self) self).
Proof.
  unfold dump_to_document.
  unfold bind at 1. unfold _init_document, modify.
  unfold bind at 1. rewrite _apply_spacing_run.
  unfold bind at 1. unfold _begin_circuit. rewrite emit_run.
  unfold bind at 1. unfold gets at 1.
  unfold bind at 1. rewrite write_wires.
  unfold bind at 1. unfold _end_circuit. rewrite emit_run.
  unfold bind at 1. unfold _end_document. rewrite emit_run.
  unfold gets, document_text. simpl.
  by rewrite !append_assoc.
Qed.

End Document.

Section Claims.
Context `{qcircuit_strings}.

(** ** The invariant of the grid *)

Lemma __init___rectangular (wires : Z) : rectangular (_circuit_matrix (__init__ wires)).
Proof.
  apply rectangular_lookup. simpl. intros i j ri rj Hi Hj.
  apply lookup_replicate in Hi as [-> _]. apply lookup_replicate in Hj as [-> _]. done.
Qed.

Lemma parse_op_rectangular (op : operator) (self : Circuit) :
  rectangular (_circuit_matrix self) ->
  rectangular (_circuit_matrix (snd (parse_op op self))).
Proof.
  destruct (parse_op_state op self) as (k & matrix' & -> & Hw).
  apply (widened_rectangular _ _ _ Hw).
Qed.

(** C1. Rectangularity invariant: in every circuit reached from a freshly
    constructed one through operators that [parse_op] accepts, all wires
    have the same number of cells; and each of the three operation types
    (single-mode, multi-mode, controlled-mode) takes a rectangular matrix
    to a rectangular matrix, on whatever wires it is called. *)
Theorem rectangularity_invariant :
  (forall (wires : Z) (self : Circuit),
      reachable wires self -> rectangular (_circuit_matrix self)) /\
  (forall (wire : Z) (circuit_op : string) (self : Circuit),
      rectangular (_circuit_matrix self) ->
      rectangular (_circuit_matrix (snd (_single_mode_gate wire circuit_op self)))) /\
  (forall (circuit_op : string) (wires : list Z) (self : Circuit),
      rectangular (_circuit_matrix self) ->
      rectangular (_circuit_matrix (snd (_multi_mode_gate circuit_op wires self)))) /\
  (forall (source_wire target_wire : Z) (circuit_op : string) (self : Circuit),
      rectangular (_circuit_matrix self) ->
      rectangular
        (_circuit_matrix
           (snd (_controlled_mode_gate source_wire target_wire circuit_op self)))).
Proof.
  repeat split.
  - intros wires self Hreach. induction Hreach as [|self op self' _ IH Hstep].
    + apply __init___rectangular.
    + apply (parse_op_rectangular op) in IH. by rewrite Hstep in IH.
  - intros wire circuit_op self. apply placed_rectangular, _single_mode_gate_placement.
  - intros circuit_op wires self. apply placed_rectangular, _multi_mode_gate_placement.
  - intros source_wire target_wire circuit_op self.
    apply placed_rectangular, _controlled_mode_gate_placement.
Qed.

(** ** Placement of gates *)

Lemma _is_empty_true (cell : string) : _is_empty cell = true <-> cell = QUANTUM_WIRE 1.
Proof. apply String.eqb_eq. Qed.

Lemma _is_empty_false (cell : string) : _is_empty cell = false <-> cell <> QUANTUM_WIRE 1.
Proof. apply String.eqb_neq. Qed.

(** C4. Single-wire overflow: when the last cell of a valid wire is not
    the empty wire, [_single_mode_gate] returns, the matrix keeps its
    wires, and every wire has its old cells followed by exactly one new
    cell: the operator on the gate's wire, the empty wire on every other
    wire. *)
Theorem single_wire_overflow (wire : Z) (circuit_op cell : string) (self : Circuit) :
  let matrix := _circuit_matrix self in
  0 <= wire < Z.of_nat (length matrix) ->
  matrix !! Z.to_nat wire ≫= last = Some cell ->
  cell <> QUANTUM_WIRE 1 ->
  exists matrix',
    _single_mode_gate wire circuit_op self = (Return tt, with_matrix matrix' self) /\
    length matrix' = length matrix /\
    forall (i : nat) (cells : list string),
      matrix !! i = Some cells ->
      exists new_cell,
        matrix' !! i = Some (cells ++ [new_cell]) /\
        length (cells ++ [new_cell]) = S (length cells) /\
        (i = Z.to_nat wire -> new_cell = circuit_op) /\
        (i <> Z.to_nat wire -> new_cell = QUANTUM_WIRE 1 /\ _is_empty new_cell = true).
Proof.
  intros matrix Hwire Hlast Hcell. subst matrix.
  rewrite _single_mode_gate_run. cbv zeta.
  rewrite (index_in_range _ _ Hwire), Hlast.
  apply _is_empty_false in Hcell. rewrite Hcell.
  eexists. split; [done|]. split.
  { by rewrite !append_cells_length, length_alter. }
  intros i cells Hi.
  rewrite overflow_lookup by apply slice_bound_le.
  rewrite Hi. simpl.
  rewrite !slice_bound_in_range by lia.
  exists (if decide (i = Z.to_nat wire) then circuit_op else QUANTUM_WIRE 1).
  apply lookup_lt_Some in Hi.
  split; [|split; [|split]].
  - repeat case_decide; subst; simpl; try lia; done.
  - rewrite length_app. simpl. lia.
  - intros ->. by case_decide.
  - intros Hne. case_decide; [done|]. split; [done|]. by apply _is_empty_true.
Qed.

(** C5. Single-wire reuse: when the last cell of a valid wire is the empty
    wire, [_single_mode_gate] returns having overwritten that one cell
    with the operator; every other cell of every wire is as it was, and so
    is the length of every wire. *)
Theorem single_wire_reuse (wire : Z) (circuit_op : string) (self : Circuit) :
  let matrix := _circuit_matrix self in
  0 <= wire < Z.of_nat (length matrix) ->
  matrix !! Z.to_nat wire ≫= last = Some (QUANTUM_WIRE 1) ->
  exists matrix',
    _single_mode_gate wire circuit_op self = (Return tt, with_matrix matrix' self) /\
    length matrix' = length matrix /\
    forall (i : nat) (cells : list string),
      matrix !! i = Some cells ->
      exists cells',
        matrix' !! i = Some cells' /\
        length cells' = length cells /\
        (forall column : nat,
            cells' !! column =
            if decide (i = Z.to_nat wire /\ S column = length cells)
            then Some circuit_op
            else cells !! column).
Proof.
  intros matrix Hwire Hlast. subst matrix.
  rewrite _single_mode_gate_run. cbv zeta.
  rewrite (index_in_range _ _ Hwire), Hlast.
  rewrite (proj2 (_is_empty_true _) eq_refl).
  eexists. split; [done|]. split; [by rewrite length_alter|].
  intros i cells Hi. rewrite list_lookup_alter.
  destruct (decide (Z.to_nat wire = i)) as [<-|Hne].
  - rewrite Hi. simpl. eexists. split; [done|]. split; [by rewrite length_insert|].
    intros column. rewrite Hi in Hlast. simpl in Hlast.
    assert (cells <> []) as Hcells by (intros ->; done).
    destruct cells as [|c cells]; [done|]. simpl length. simpl pred.
    rewrite list_lookup_insert by (simpl; lia).
    simpl length. repeat case_decide; try done; exfalso; lia.
  - exists cells. split; [done|]. split; [done|].
    intros column. case_decide as Heq; [|done]. by destruct Heq as [-> _].
Qed.

(** C6. Multi-wire gate: on a matrix whose wires all have a last cell,
    [_multi_mode_gate] on valid wires returns.  If the last cell of every
    wire is the empty wire, the last cell of each targeted wire becomes the
    operator and nothing else changes.  If the last cell of some wire is
    not the empty wire, whether or not that wire is targeted, every wire
    gets one new cell: the operator on the targeted wires, the empty wire
    on the others. *)
Theorem multi_wire_gate_column (circuit_op : string) (wires : list Z) (self : Circuit) :
  let matrix := _circuit_matrix self in
  Forall (fun cells => cells <> []) matrix ->
  Forall (fun wire => 0 <= wire < Z.of_nat (length matrix)) wires ->
  exists matrix',
    _multi_mode_gate circuit_op wires self = (Return tt, with_matrix matrix' self) /\
    (Forall (fun cells => last cells = Some (QUANTUM_WIRE 1)) matrix ->
     forall (i : nat) (cells : list string),
       matrix !! i = Some cells ->
       matrix' !! i =
       Some (if decide (Z.of_nat i ∈ wires)
             then <[pred (length cells) := circuit_op]> cells
             else cells)) /\
    (Exists (fun cells => last cells <> Some (QUANTUM_WIRE 1)) matrix ->
     forall (i : nat) (cells : list string),
       matrix !! i = Some cells ->
       matrix' !! i =
       Some (cells ++ [if decide (Z.of_nat i ∈ wires)
                       then circuit_op
                       else QUANTUM_WIRE 1])).
Proof.
  intros matrix Hrows Hwires. subst matrix.
  unfold _multi_mode_gate. unfold bind at 1.
  rewrite (_on_empty_column_run _ Hrows).
  destruct (forallb _ _) eqn:Hcolumn.
  - apply column_empty_Forall in Hcolumn.
    unfold bind at 1. change (negb true) with false. cbv iota. unfold ret at 1.
    destruct (set_last_loop_run circuit_op wires self Hrows Hwires)
      as (matrix' & Hrun & Hlookup).
    exists matrix'. split; [done|]. split.
    + intros _ i cells Hi. by rewrite Hlookup, Hi.
    + intros Hex. apply Exists_not_Forall in Hex. by destruct Hex.
  - assert (~ Forall (fun cells => last cells = Some (QUANTUM_WIRE 1))
                (_circuit_matrix self)) as Hnot.
    { rewrite <- column_empty_Forall. congruence. }
    unfold bind at 1. change (negb false) with true. cbv iota.
    rewrite _add_column_run.
    set (self1 := with_matrix _ self).
    destruct (set_last_loop_run circuit_op wires self1) as (matrix' & Hrun & Hlookup).
    { subst self1. rewrite with_matrix_matrix. apply Forall_lookup.
      intros i cells. rewrite new_column_lookup.
      destruct (_ !! i) as [cells0|]; simpl; [|done].
      intros [= <-]. by destruct cells0. }
    { subst self1. by rewrite with_matrix_matrix, append_cells_length. }
    exists matrix'. rewrite Hrun. subst self1. rewrite with_matrix_twice.
    split; [done|]. split; [done|].
    intros _ i cells Hi.
    rewrite Hlookup, with_matrix_matrix, new_column_lookup, Hi. simpl.
    case_decide; [|done].
    rewrite length_app. simpl.
    replace (pred (length cells + 1)) with (length cells + 0)%nat by lia.
    by rewrite insert_app_r.
Qed.

(** C7. Controlled pair: when the last cells of two distinct valid wires
    of a rectangular matrix are empty wires, [_controlled_mode_gate]
    returns without adding a column, and in the last column the source
    wire holds the control marker of the signed distance
    [target_wire - source_wire] and the target wire holds the operator. *)
Theorem controlled_pair_distance (source_wire target_wire : Z) (circuit_op : string)
  (self : Circuit) :
  let matrix := _circuit_matrix self in
  0 <= source_wire < Z.of_nat (length matrix) ->
  0 <= target_wire < Z.of_nat (length matrix) ->
  source_wire <> target_wire ->
  rectangular matrix ->
  matrix !! Z.to_nat source_wire ≫= last = Some (QUANTUM_WIRE 1) ->
  matrix !! Z.to_nat target_wire ≫= last = Some (QUANTUM_WIRE 1) ->
  exists (matrix' : list (list string)) (column : nat),
    _controlled_mode_gate source_wire target_wire circuit_op self =
    (Return tt, with_matrix matrix' self) /\
    Forall (fun cells => length cells = S column) matrix /\
    Forall (fun cells => length cells = S column) matrix' /\
    matrix' !! Z.to_nat source_wire ≫= (.!! column) =
    Some (CONTROL (target_wire - source_wire)) /\
    matrix' !! Z.to_nat target_wire ≫= (.!! column) = Some circuit_op.
Proof.
  intros matrix Hsource Htarget Hne Hrect Hslast Htlast. subst matrix.
  rewrite _controlled_mode_gate_run. cbv zeta.
  rewrite (index_in_range _ _ Hsource), (index_in_range _ _ Htarget).
  rewrite Hslast, Htlast, (proj2 (_is_empty_true _) eq_refl).
  destruct (_circuit_matrix self !! Z.to_nat source_wire) as [scells|] eqn:Hs; [|done].
  destruct (_circuit_matrix self !! Z.to_nat target_wire) as [tcells|] eqn:Ht; [|done].
  simpl in Hslast, Htlast.
  assert (Z.to_nat source_wire <> Z.to_nat target_wire) as Hne' by lia.
  assert (exists column, length scells = S column) as [column Hcolumn].
  { destruct scells; [done|]. by eexists. }
  assert (Forall (fun cells => length cells = S column) (_circuit_matrix self)) as Hall.
  { apply Forall_lookup. intros i cells Hi. rewrite <- Hcolumn.
    by apply (proj1 (rectangular_lookup _) Hrect i (Z.to_nat source_wire)). }
  assert (length tcells = S column) as Hcolumn'.
  { by apply (proj1 (Forall_lookup _ _) Hall (Z.to_nat target_wire)). }
  eexists _, column. split; [done|]. split; [done|]. split; [|split].
  - apply Forall_alter; [apply Forall_alter; [done|]|];
      intros cells _ Hlen; by rewrite length_insert.
  - rewrite list_lookup_alter_ne by done. rewrite list_lookup_alter_eq, Hs. simpl.
    rewrite Hcolumn. simpl. apply list_lookup_insert_eq. lia.
  - rewrite list_lookup_alter_eq, list_lookup_alter_ne, Ht by done. simpl.
    rewrite Hcolumn'. simpl. apply list_lookup_insert_eq. lia.
Qed.

(** ** Errors of the translation *)

(** C2. When [parse_op] raises [UnsupportedGateException] or
    [ModeMismatchException], it does so before any mutation: the circuit
    matrix after the failed call is the circuit matrix before it. *)
Theorem parse_op_error_before_mutation (op : operator) (self self' : Circuit) (e : exn) :
  parse_op op self = (Raise e, self') ->
  (exists msg, e = UnsupportedGateException msg \/ e = ModeMismatchException msg) ->
  _circuit_matrix self' = _circuit_matrix self.
Proof.
  intros Hrun [msg He]. f_equal.
  apply (parse_op_own_exception op self self' e Hrun); destruct He; by subst.
Qed.

(** C3, as the code has it. When the operator is classified with some
    arity and is applied to another number of wires, [parse_op] raises
    [ModeMismatchException] with the message "<arity> mode gate applied to
    <count> wires!": it carries the expected arity and the actual wire
    count, and leaves the state as it was. *)
Theorem mode_mismatch_message (op : operator) (self : Circuit) (f : method) (arity : Z) :
  fst (_gate_from_operator op self) = Return (Some f, Some arity) ->
  arity <> Z.of_nat (length (op_reg op)) ->
  parse_op op self =
  (Raise (ModeMismatchException
            (str_int arity +:+ " mode gate applied to "
             +:+ str_int (Z.of_nat (length (op_reg op))) +:+ " wires!")),
   self).
Proof.
  intros Hfound Harity. rewrite parse_op_run, Hfound.
  case_decide; [congruence|done].
Qed.

(** C8. Table precedence: the gate-kind string is the text of the operator
    before the first [PIPE].  If a key of the two-mode table occurs in it,
    the result is the method of such a key with mode 2, and it is the same
    whatever the single-mode table holds; if none does and a key of the
    single-mode table occurs in it, the result is the method of such a key
    with mode 1; if no key of either table occurs in it, the result is
    [(None, None)]. *)
Theorem two_mode_table_first (op : operator) (self : Circuit) (gate_kind : string) :
  split_head PIPE (op_str op) = Some gate_kind ->
  let matches (table : list (string * method)) :=
    Exists (fun entry => str_in (fst entry) gate_kind = true) table in
  (matches (two_mode_gates self) ->
     (exists key f,
         (key, f) ∈ two_mode_gates self /\ str_in key gate_kind = true /\
         fst (_gate_from_operator op self) = Return (Some f, Some 2)) /\
     (forall self' : Circuit,
         two_mode_gates self' = two_mode_gates self ->
         fst (_gate_from_operator op self') = fst (_gate_from_operator op self))) /\
  (~ matches (two_mode_gates self) -> matches (single_mode_gates self) ->
     exists key f,
       (key, f) ∈ single_mode_gates self /\ str_in key gate_kind = true /\
       fst (_gate_from_operator op self) = Return (Some f, Some 1)) /\
  (~ matches (two_mode_gates self) -> ~ matches (single_mode_gates self) ->
     fst (_gate_from_operator op self) = Return (None, None)).
Proof.
  intros Hkind matches. split; [intros Hmatch; split|split].
  - destruct (scan_table_match _ 2 gate_kind (None, None) Hmatch)
      as (key & f & Hin & Hkey & Hscan).
    exists key, f. rewrite _gate_from_operator_run, Hkind. simpl.
    by rewrite Hscan.
  - intros self' Htwo.
    destruct (scan_table_match _ 2 gate_kind (None, None) Hmatch)
      as (key & f & Hin & Hkey & Hscan).
    rewrite !_gate_from_operator_run, Hkind, Htwo. simpl. by rewrite Hscan.
  - intros Htwo Hsingle.
    destruct (scan_table_match _ 1 gate_kind (None, None) Hsingle)
      as (key & f & Hin & Hkey & Hscan).
    exists key, f. rewrite _gate_from_operator_run, Hkind. simpl.
    by rewrite (scan_table_no_match _ _ _ _ Htwo), Hscan.
  - intros Htwo Hsingle.
    rewrite _gate_from_operator_run, Hkind. simpl.
    by rewrite (scan_table_no_match _ _ _ _ Htwo), (scan_table_no_match _ _ _ _ Hsingle).
Qed.

(** ** Serialization *)

(** C9. [dump_to_document] returns the document text of the spec: after
    the preamble, the spacing directives and the body start, the wires
    follow in increasing index order, each as its cells in order, every
    cell wrapped in the wire-operation template and padded with spaces,
    then one wire terminator; cells of different wires are not
    interleaved. *)
Theorem dump_to_document_wire_major (self : Circuit) :
  fst (dump_to_document self) =
  Return (INIT_DOCUMENT +:+ spacing_text self +:+ CIRCUIT_BODY_START
          +:+ fold_right String.append ""
                (map (fun wire_ops =>
                        fold_right String.append WIRE_TERMINATOR
                          (map (fun cell => " " +:+ WIRE_OPERATION cell +:+ " ") wire_ops))
                   (_circuit_matrix self))
          +:+ CIRCUIT_BODY_TERMINATOR +:+ DOCUMENT_END).
Proof. by rewrite dump_to_document_run. Qed.

(** C10. [dump_to_document] changes neither the circuit matrix nor the
    spacing, and starts from the preamble whatever [_document] held: two
    consecutive calls return the same string.  The document is overwritten,
    not appended to: after the call [_document] is the returned text, which
    begins with the preamble, and the state after the call is the state
    before it with that text for its document, whatever document was there
    before. *)
Theorem dump_to_document_twice (self : Circuit) :
  let first := dump_to_document self in
  let second := dump_to_document (snd first) in
  fst second = fst first /\
  _circuit_matrix (snd first) = _circuit_matrix self /\
  _column_spacing (snd first) = _column_spacing self /\
  _row_spacing (snd first) = _row_spacing self /\
  (forall document : string,
      fst (dump_to_document (with_document document self)) = fst first) /\
  fst first = Return (_document (snd first)) /\
  snd first = with_document (_document (snd first)) self /\
  (exists body : string, _document (snd first) = INIT_DOCUMENT +:+ body) /\
  (forall document : string,
      let again := dump_to_document (with_document document self) in
      snd again = snd first /\
      fst again = Return (_document (snd again))) /\
  snd second = snd first.
Proof.
  cbv zeta. rewrite !dump_to_document_run. simpl.
  split; [done|]. split; [done|]. split; [done|]. split; [done|].
  split; [intros document; by rewrite dump_to_document_run|].
  split; [done|]. split; [done|].
  split; [unfold document_text; by eexists|].
  split; [|done].
  intros document. by rewrite dump_to_document_run.
Qed.

End Claims.

(** ** The development at work on the Qcircuit vocabulary *)

Section Examples.
Local Existing Instance qcircuit.

Lemma rectangularity_invariant_witness :
  reachable 3 (snd (parse_op cx_up x_on_first)) /\
  rectangular (_circuit_matrix (snd (parse_op cx_up x_on_first))).
Proof.
  assert (reachable 3 (snd (parse_op cx_up x_on_first))) as Hreach.
  { apply (reachable_step 3 x_on_first cx_up); [|reflexivity].
    apply (reachable_step 3 three_wires x_first); [|reflexivity].
    apply reachable_init. }
  split; [exact Hreach|].
  exact (proj1 rectangularity_invariant 3 _ Hreach).
Defined.

Lemma parse_op_error_before_mutation_witness :
  parse_op bs_on_one x_on_first =
  (Raise (ModeMismatchException "2 mode gate applied to 1 wires!"), x_on_first) /\
  _circuit_matrix (snd (parse_op bs_on_one x_on_first)) =
  [["\gate{X}"]; ["\qw[1]"]; ["\qw[1]"]].
Proof.
  split; [reflexivity|].
  refine (eq_trans
            (parse_op_error_before_mutation bs_on_one x_on_first
               (snd (parse_op bs_on_one x_on_first))
               (ModeMismatchException "2 mode gate applied to 1 wires!") _ _) _).
  - reflexivity.
  - eexists. right. reflexivity.
  - reflexivity.
Defined.

Lemma mode_mismatch_message_witness :
  fst (_gate_from_operator bs_on_one three_wires) = Return (Some meth_bs, Some 2) /\
  2 <> Z.of_nat (length (op_reg bs_on_one)) /\
  parse_op bs_on_one three_wires =
  (Raise (ModeMismatchException "2 mode gate applied to 1 wires!"), three_wires).
Proof.
  split; [reflexivity|]. split; [simpl; lia|].
  apply (mode_mismatch_message bs_on_one three_wires meth_bs 2).
  - reflexivity.
  - simpl. lia.
Defined.

(** C3, as the spec has it, fails: the exception raised for a beamsplitter
    on one wire holds the message "2 mode gate applied to 1 wires!", in
    which neither [str(op)], nor the text before the pipe, nor the key
    "BSgate" occurs; a two-mode squeezer on one wire raises the very same
    exception. *)
Lemma mode_mismatch_omits_gate_kind :
  exists msg,
    parse_op bs_on_one three_wires = (Raise (ModeMismatchException msg), three_wires) /\
    msg = "2 mode gate applied to 1 wires!" /\
    str_in (op_str bs_on_one) msg = false /\
    str_in "BSgate(0.5, 0.1) " msg = false /\
    str_in "BSgate" msg = false /\
    parse_op s2_on_one three_wires = (Raise (ModeMismatchException msg), three_wires).
Proof. eexists. repeat split; reflexivity. Qed.

Lemma single_wire_overflow_witness :
  0 <= 0 < Z.of_nat (length (_circuit_matrix x_on_first)) /\
  _circuit_matrix x_on_first !! Z.to_nat 0 ≫= last = Some "\gate{X}" /\
  "\gate{X}" <> QUANTUM_WIRE 1 /\
  exists matrix',
    _single_mode_gate 0 "\gate{Z}" x_on_first = (Return tt, with_matrix matrix' x_on_first) /\
    length matrix' = length (_circuit_matrix x_on_first) /\
    forall (i : nat) (cells : list string),
      _circuit_matrix x_on_first !! i = Some cells ->
      exists new_cell,
        matrix' !! i = Some (cells ++ [new_cell]) /\
        length (cells ++ [new_cell]) = S (length cells) /\
        (i = Z.to_nat 0 -> new_cell = "\gate{Z}") /\
        (i <> Z.to_nat 0 -> new_cell = QUANTUM_WIRE 1 /\ _is_empty new_cell = true).
Proof.
  split; [simpl; lia|]. split; [reflexivity|]. split; [discriminate|].
  apply (single_wire_overflow 0 "\gate{Z}" "\gate{X}" x_on_first).
  - simpl. lia.
  - reflexivity.
  - discriminate.
Defined.

Lemma single_wire_reuse_witness :
  0 <= 1 < Z.of_nat (length (_circuit_matrix x_on_first)) /\
  _circuit_matrix x_on_first !! Z.to_nat 1 ≫= last = Some (QUANTUM_WIRE 1) /\
  exists matrix',
    _single_mode_gate 1 "\gate{Z}" x_on_first = (Return tt, with_matrix matrix' x_on_first) /\
    length matrix' = length (_circuit_matrix x_on_first) /\
    forall (i : nat) (cells : list string),
      _circuit_matrix x_on_first !! i = Some cells ->
      exists cells',
        matrix' !! i = Some cells' /\
        length cells' = length cells /\
        (forall column : nat,
            cells' !! column =
            if decide (i = Z.to_nat 1 /\ S column = length cells)
            then Some "\gate{Z}"
            else cells !! column).
Proof.
  split; [simpl; lia|]. split; [reflexivity|].
  apply (single_wire_reuse 1 "\gate{Z}" x_on_first).
  - simpl. lia.
  - reflexivity.
Defined.

(** The beamsplitter goes to wires 1 and 2, whose last cells are free, yet
    the gate on wire 0 forces a new column. *)
Lemma multi_wire_gate_column_witness :
  Forall (fun cells => cells <> []) (_circuit_matrix x_on_first) /\
  Forall (fun wire => 0 <= wire < Z.of_nat (length (_circuit_matrix x_on_first))) [1; 2] /\
  Exists (fun cells => last cells <> Some (QUANTUM_WIRE 1)) (_circuit_matrix x_on_first) /\
  exists matrix',
    _multi_mode_gate BS_COMP [1; 2] x_on_first = (Return tt, with_matrix matrix' x_on_first) /\
    matrix' !! 0%nat = Some ["\gate{X}"; "\qw[1]"] /\
    matrix' !! 1%nat = Some ["\qw[1]"; "\gate{BS}"] /\
    matrix' !! 2%nat = Some ["\qw[1]"; "\gate{BS}"].
Proof.
  assert (Forall (fun cells : list string => cells <> []) (_circuit_matrix x_on_first))
    as Hrows by (repeat constructor; discriminate).
  assert (Forall (fun wire => 0 <= wire < Z.of_nat (length (_circuit_matrix x_on_first)))
            [1; 2]) as Hwires by (repeat constructor; simpl; lia).
  assert (Exists (fun cells => last cells <> Some (QUANTUM_WIRE 1))
            (_circuit_matrix x_on_first)) as Hfull by (left; discriminate).
  split; [exact Hrows|]. split; [exact Hwires|]. split; [exact Hfull|].
  destruct (multi_wire_gate_column BS_COMP [1; 2] x_on_first Hrows Hwires)
    as (matrix' & Hrun & _ & Hnew).
  exists matrix'. split; [exact Hrun|].
  split; [|split].
  - exact (Hnew Hfull 0%nat ["\gate{X}"] eq_refl).
  - exact (Hnew Hfull 1%nat ["\qw[1]"] eq_refl).
  - exact (Hnew Hfull 2%nat ["\qw[1]"] eq_refl).
Defined.

(** Source 0 and target 2 give the distance +2, source 2 and target 0 the
    distance -2, in the only column of the fresh circuit. *)
Lemma controlled_pair_distance_witness :
  (exists matrix',
      _controlled_mode_gate 0 2 TARGET three_wires =
      (Return tt, with_matrix matrix' three_wires) /\
      matrix' !! 0%nat ≫= (.!! 0%nat) = Some "\ctrl{2}" /\
      matrix' !! 2%nat ≫= (.!! 0%nat) = Some "\targ") /\
  (exists matrix',
      _controlled_mode_gate 2 0 TARGET three_wires =
      (Return tt, with_matrix matrix' three_wires) /\
      matrix' !! 2%nat ≫= (.!! 0%nat) = Some "\ctrl{-2}" /\
      matrix' !! 0%nat ≫= (.!! 0%nat) = Some "\targ").
Proof.
  assert (rectangular (_circuit_matrix three_wires)) as Hrect
    by (repeat constructor).
  split.
  - destruct (controlled_pair_distance 0 2 TARGET three_wires)
      as (matrix' & column & Hrun & Hold & _ & Hsource & Htarget);
      [simpl; lia|simpl; lia|discriminate|exact Hrect|reflexivity|reflexivity|].
    apply Forall_cons in Hold as [Hcolumn _]. injection Hcolumn as <-.
    exists matrix'. split; [exact Hrun|]. split; [exact Hsource|exact Htarget].
  - destruct (controlled_pair_distance 2 0 TARGET three_wires)
      as (matrix' & column & Hrun & Hold & _ & Hsource & Htarget);
      [simpl; lia|simpl; lia|discriminate|exact Hrect|reflexivity|reflexivity|].
    apply Forall_cons in Hold as [Hcolumn _]. injection Hcolumn as <-.
    exists matrix'. split; [exact Hrun|]. split; [exact Hsource|exact Htarget].
Defined.

(** "CXgate(1) " holds the key "CXgate" of the two-mode table and the key
    "Xgate" of the single-mode table: the two-mode table wins. *)
Lemma two_mode_table_first_witness :
  split_head PIPE (op_str cx_down) = Some "CXgate(1) " /\
  Exists (fun entry => str_in (fst entry) "CXgate(1) " = true)
    (single_mode_gates three_wires) /\
  Exists (fun entry => str_in (fst entry) "CXgate(1) " = true)
    (two_mode_gates three_wires) /\
  exists key f,
    (key, f) ∈ two_mode_gates three_wires /\ str_in key "CXgate(1) " = true /\
    fst (_gate_from_operator cx_down three_wires) = Return (Some f, Some 2).
Proof.
  split; [reflexivity|]. split; [left; reflexivity|].
  assert (Exists (fun entry : string * method => str_in (fst entry) "CXgate(1) " = true)
            (two_mode_gates three_wires)) as Htwo by (left; reflexivity).
  split; [exact Htwo|].
  exact (proj1 (proj1 (two_mode_table_first cx_down three_wires "CXgate(1) " eq_refl) Htwo)).
Defined.

(** The traversal of the spec's example: wire 0 holds an empty cell and a
    gate, wire 1 two empty cells. *)
Example dump_two_wires :
  fst (dump_to_document
         (with_matrix [["\qw[1]"; "\gate{D}"]; ["\qw[1]"; "\qw[1]"]] (__init__ 2))) =
  Return (INIT_DOCUMENT +:+ " {" +:+ newline
          +:+ " & \qw[1]  & \gate{D} \\" +:+ newline
          +:+ " & \qw[1]  & \qw[1] \\" +:+ newline
          +:+ "}" +:+ newline +:+ "\end{document}").
Proof. reflexivity. Qed.

(** Outside the wires of the circuit the caller is on its own: the index
    [-1] is the last wire to Python, and the slice [matrix[wire + 1:]] is
    then the whole matrix, so that an overflow on it adds two columns. *)
Example overflow_on_negative_index :
  _circuit_matrix
    (snd ((_single_mode_gate (-1) "\gate{X}" ;;; _single_mode_gate (-1) "\gate{Z}")
            three_wires)) =
  [["\qw[1]"; "\qw[1]"; "\qw[1]"];
   ["\qw[1]"; "\qw[1]"; "\qw[1]"];
   ["\gate{X}"; "\gate{Z}"; "\qw[1]"]].
Proof. reflexivity. Qed.

(** An index out of range in a multi-mode gate is found only after the new
    column is in place. *)
Example multi_mode_index_error :
  let result := _multi_mode_gate BS_COMP [0; 5] x_on_first in
  fst result = Raise IndexError /\
  _circuit_matrix (snd result) =
  [["\gate{X}"; "\gate{BS}"]; ["\qw[1]"; "\qw[1]"]; ["\qw[1]"; "\qw[1]"]].
Proof. split; reflexivity. Qed.

End Examples.

(** ** Beyond the claims: more of what the drawer does *)

Section Further.
Context `{qcircuit_strings}.

(** *** What every circuit of the class looks like *)

Lemma widened_length (k : nat) (m m' : list (list string)) :
  widened k m m' -> length m' = length m.
Proof.
  intros Hw.
  destruct (decide (length m' = length m)) as [|Hne]; [done|]. exfalso.
  destruct (decide (length m < length m')%nat) as [Hlt|Hge].
  - destruct (lookup_lt_is_Some_2 m' (length m) Hlt) as [cells' Hcells'].
    specialize (Hw (length m)). rewrite Hcells' in Hw.
    rewrite (proj2 (lookup_ge_None m (length m))) in Hw by lia. done.
  - assert (length m' < length m)%nat as Hlt by lia.
    destruct (lookup_lt_is_Some_2 m (length m') Hlt) as [cells Hcells].
    specialize (Hw (length m')). rewrite Hcells in Hw.
    rewrite (proj2 (lookup_ge_None m' (length m'))) in Hw by lia. done.
Qed.

Lemma widened_nonempty (k : nat) (m m' : list (list string)) :
  widened k m m' ->
  Forall (fun cells => cells <> []) m -> Forall (fun cells => cells <> []) m'.
Proof.
  rewrite !Forall_lookup. intros Hw Hm i cells' Hi.
  specialize (Hw i). rewrite Hi in Hw.
  destruct (m !! i) as [cells|] eqn:Hcells; [|done].
  simpl in Hw. injection Hw as Hlen.
  specialize (Hm i cells Hcells). destruct cells; [done|].
  intros ->. simpl in Hlen. lia.
Qed.

(** [parse_op] changes the circuit matrix and nothing else. *)
Lemma parse_op_frame (op : operator) (self : Circuit) :
  exists matrix', snd (parse_op op self) = with_matrix matrix' self.
Proof. destruct (parse_op_state op self) as (k & matrix' & Hstate & _). eauto. Qed.

(** X1. A circuit constructed with [wires] wires and fed operators that
    [parse_op] accepts keeps its number of wires, has at least one cell on
    every wire, and keeps the gate tables, the spacing and the (empty)
    document of the constructor. *)
Theorem reachable_shape (wires : Z) (self : Circuit) :
  reachable wires self ->
  length (_circuit_matrix self) = Z.to_nat wires /\
  Forall (fun cells => cells <> []) (_circuit_matrix self) /\
  constructor_tables self /\
  _document self = "" /\
  _column_spacing self = None /\ _row_spacing self = None.
Proof.
  intros Hreach. induction Hreach as [|self op self' _ IH Hstep].
  - simpl. rewrite length_replicate. split; [done|].
    split; [by apply Forall_replicate|]. done.
  - destruct IH as (Hlen & Hrows & Htables & Hdoc & Hcol & Hrow).
    destruct (parse_op_state op self) as (k & matrix' & Hstate & Hw).
    rewrite Hstep in Hstate. simpl in Hstate. subst self'.
    rewrite with_matrix_matrix.
    rewrite (widened_length _ _ _ Hw).
    split; [done|]. split; [by apply (widened_nonempty _ _ _ Hw)|]. done.
Qed.

(** X2. Whatever its outcome, [parse_op] leaves the document, the spacing
    and the gate tables as they were: the text that [str] gives for the
    circuit is not refreshed by placing gates. *)
Theorem parse_op_keeps_document (op : operator) (self : Circuit) :
  let self' := snd (parse_op op self) in
  _document self' = _document self /\
  _column_spacing self' = _column_spacing self /\
  _row_spacing self' = _row_spacing self /\
  single_mode_gates self' = single_mode_gates self /\
  two_mode_gates self' = two_mode_gates self /\
  fst (__str__ self') = fst (__str__ self).
Proof.
  cbv zeta. destruct (parse_op_frame op self) as [matrix' ->]. done.
Qed.

(** X3. After [dump_to_document], [str] gives the document that was
    returned, and goes on giving it when gates are placed afterwards, until
    the next [dump_to_document]. *)
Theorem str_after_dump (ops : list operator) (self : Circuit) :
  let dumped := dump_to_document self in
  fst (__str__ (snd dumped)) = fst dumped /\
  fst (__str__ (snd (for_ ops parse_op (snd dumped)))) = fst dumped.
Proof.
  assert (forall s, _document (snd (for_ ops parse_op s)) = _document s) as Hkeep.
  { induction ops as [|op ops IH]; intros s; [done|].
    simpl. unfold bind.
    destruct (parse_op_frame op s) as [matrix' Hframe].
    destruct (parse_op op s) as [[[]|e] s']; simpl in *; subst s'; [|done].
    by rewrite IH. }
  cbv zeta. rewrite dump_to_document_run. unfold __str__, gets. simpl.
  split; [done|]. by rewrite Hkeep.
Qed.

(** *** Errors of the operation types *)

(** X4. [_single_mode_gate] and [_controlled_mode_gate] are atomic: if one
    of them raises, the exception is [IndexError] and the state is the one
    before the call. *)
Theorem single_and_controlled_atomic (self self' : Circuit) (e : exn) :
  (forall (wire : Z) (circuit_op : string),
      _single_mode_gate wire circuit_op self = (Raise e, self') ->
      e = IndexError /\ self' = self) /\
  (forall (source_wire target_wire : Z) (circuit_op : string),
      _controlled_mode_gate source_wire target_wire circuit_op self = (Raise e, self') ->
      e = IndexError /\ self' = self).
Proof.
  split.
  - intros wire circuit_op. rewrite _single_mode_gate_run. cbv zeta.
    destruct (index _ wire); [|by intros [= <- <-]].
    destruct (_ ≫= last) as [cell|]; [|by intros [= <- <-]].
    by destruct (_is_empty cell).
  - intros source_wire target_wire circuit_op.
    rewrite _controlled_mode_gate_run. cbv zeta.
    destruct (index _ source_wire); [|by intros [= <- <-]].
    destruct (index _ target_wire); [|by intros [= <- <-]].
    destruct (_ ≫= last) as [source_cell|]; [|by intros [= <- <-]].
    destruct (_is_empty source_cell); [|done].
    destruct (_ ≫= last) as [target_cell|]; [|by intros [= <- <-]].
    by destruct (_is_empty target_cell).
Qed.

Lemma index_None (n : nat) (i : Z) :
  index n i = None <-> ~ (- Z.of_nat n <= i < Z.of_nat n).
Proof.
  unfold index.
  destruct (Z.leb_spec 0 i), (Z.ltb_spec i (Z.of_nat n)),
    (Z.leb_spec (- Z.of_nat n) i), (Z.ltb_spec i 0); simpl;
    split; intros; try done; lia.
Qed.

Lemma nonempty_last (m : list (list string)) (i : nat) :
  Forall (fun cells => cells <> []) m ->
  (i < length m)%nat -> is_Some (m !! i ≫= last).
Proof.
  intros Hrows Hi. destruct (lookup_lt_is_Some_2 m i Hi) as [cells Hcells].
  rewrite Hcells. simpl. rewrite Forall_lookup in Hrows.
  specialize (Hrows i cells Hcells).
  destruct (last cells) eqn:Hlast; [by eexists|]. by apply last_None in Hlast.
Qed.

(** X5. The wires that [_single_mode_gate] takes: on a matrix of [n] wires
    that all have a cell it returns exactly for the indices from [-n] to
    [n - 1], Python's own range for a list of length [n], and raises
    [IndexError] for every other. *)
Theorem single_mode_gate_index_range (wire : Z) (circuit_op : string) (self : Circuit) :
  let n := Z.of_nat (length (_circuit_matrix self)) in
  Forall (fun cells => cells <> []) (_circuit_matrix self) ->
  (- n <= wire < n -> fst (_single_mode_gate wire circuit_op self) = Return tt) /\
  (~ (- n <= wire < n) ->
   _single_mode_gate wire circuit_op self = (Raise IndexError, self)).
Proof.
  intros n Hrows. subst n. rewrite _single_mode_gate_run. cbv zeta. split.
  - intros Hwire. destruct (index _ wire) as [row|] eqn:Hrow.
    2: { apply index_None in Hrow. done. }
    apply index_Some in Hrow as [Hlt _].
    destruct (nonempty_last _ row Hrows Hlt) as [cell ->].
    by destruct (_is_empty cell).
  - intros Hwire. apply index_None in Hwire. by rewrite Hwire.
Qed.

(** X6. After [_single_mode_gate] on a wire from [0] to [n - 1], the
    operator is the last cell of that wire, whether the column was reused
    or a new one was added. *)
Theorem single_mode_gate_last_cell (wire : Z) (circuit_op : string) (self : Circuit) :
  0 <= wire < Z.of_nat (length (_circuit_matrix self)) ->
  Forall (fun cells => cells <> []) (_circuit_matrix self) ->
  exists matrix',
    _single_mode_gate wire circuit_op self = (Return tt, with_matrix matrix' self) /\
    matrix' !! Z.to_nat wire ≫= last = Some circuit_op.
Proof.
  intros Hwire Hrows. rewrite _single_mode_gate_run. cbv zeta.
  rewrite (index_in_range _ _ Hwire).
  destruct (nonempty_last _ (Z.to_nat wire) Hrows) as [cell Hcell]; [lia|].
  rewrite Hcell.
  destruct (_circuit_matrix self !! Z.to_nat wire) as [cells|] eqn:Hcells; [|done].
  simpl in Hcell.
  destruct (_is_empty cell).
  - eexists. split; [done|].
    rewrite list_lookup_alter_eq, Hcells. simpl.
    rewrite last_lookup, length_insert. apply list_lookup_insert_eq.
    destruct cells; [done|]. simpl. lia.
  - eexists. split; [done|].
    rewrite overflow_lookup by apply slice_bound_le.
    rewrite Hcells. simpl.
    rewrite !slice_bound_in_range by lia.
    rewrite decide_True by done.
    rewrite decide_False by lia. rewrite decide_False by lia.
    simpl. apply last_snoc.
Qed.

(** X7. The other branch of [_controlled_mode_gate]: when the last cell of
    the source or of the target is not an empty wire, every wire gets one
    new cell: the control marker of the distance on the source, the
    operator on the target, an empty wire on every other wire. *)
Theorem controlled_mode_gate_new_column (source_wire target_wire : Z)
  (circuit_op source_cell target_cell : string) (self : Circuit) :
  let matrix := _circuit_matrix self in
  0 <= source_wire < Z.of_nat (length matrix) ->
  0 <= target_wire < Z.of_nat (length matrix) ->
  matrix !! Z.to_nat source_wire ≫= last = Some source_cell ->
  matrix !! Z.to_nat target_wire ≫= last = Some target_cell ->
  source_cell <> QUANTUM_WIRE 1 \/ target_cell <> QUANTUM_WIRE 1 ->
  exists matrix',
    _controlled_mode_gate source_wire target_wire circuit_op self =
    (Return tt, with_matrix matrix' self) /\
    length matrix' = length matrix /\
    forall (i : nat) (cells : list string),
      matrix !! i = Some cells ->
      matrix' !! i =
      Some (cells ++ [if decide (Z.of_nat i = source_wire)
                      then CONTROL (target_wire - source_wire)
                      else if decide (Z.of_nat i = target_wire) then circuit_op
                      else QUANTUM_WIRE 1]).
Proof.
  intros matrix Hsource Htarget Hslast Htlast Hfull. subst matrix.
  rewrite _controlled_mode_gate_run. cbv zeta.
  rewrite (index_in_range _ _ Hsource), (index_in_range _ _ Htarget).
  rewrite Hslast, Htlast.
  assert (forall i cells,
             _circuit_matrix self !! i = Some cells ->
             append_cells (controlled_cell source_wire target_wire circuit_op)
               (seq 0 (length (_circuit_matrix self))) (_circuit_matrix self) !! i =
             Some (cells ++ [if decide (Z.of_nat i = source_wire)
                             then CONTROL (target_wire - source_wire)
                             else if decide (Z.of_nat i = target_wire) then circuit_op
                             else QUANTUM_WIRE 1])) as Hcolumn.
  { intros i cells Hi. rewrite new_column_lookup, Hi. simpl.
    unfold controlled_cell.
    destruct (Z.eqb_spec (Z.of_nat i) source_wire),
      (Z.eqb_spec (Z.of_nat i) target_wire);
      repeat case_decide; done. }
  destruct (_is_empty source_cell) eqn:Hs.
  - destruct (_is_empty target_cell) eqn:Ht.
    + apply _is_empty_true in Hs, Ht. by destruct Hfull.
    + eexists. split; [done|]. split; [apply append_cells_length|done].
  - eexists. split; [done|]. split; [apply append_cells_length|done].
Qed.

Lemma for_app {S A} (l1 l2 : list A) (body : A -> M S unit) (s : S) :
  for_ (l1 ++ l2) body s = (for_ l1 body ;;; for_ l2 body) s.
Proof.
  revert s. induction l1 as [|x l1 IH]; intros s; simpl.
  - done.
  - unfold bind. destruct (body x s) as [[[]|e] s']; [|done].
    rewrite IH. done.
Qed.

(** On a matrix whose wires all have a cell, [_multi_mode_gate] is its
    loop over the wires, run on the matrix with the new column if the
    column test fails. *)
Lemma _multi_mode_gate_loop (circuit_op : string) (wires : list Z) (self : Circuit) :
  Forall (fun cells => cells <> []) (_circuit_matrix self) ->
  _multi_mode_gate circuit_op wires self =
  for_ wires (fun wire =>
    wire_ops <~ matrix_getitem wire ;; row_set_last wire_ops circuit_op)
    (if forallb (fun cells => from_option _is_empty false (last cells))
          (_circuit_matrix self)
     then self
     else with_matrix
            (append_cells (fun _ => QUANTUM_WIRE 1)
               (seq 0 (length (_circuit_matrix self))) (_circuit_matrix self)) self).
Proof.
  intros Hrows. unfold _multi_mode_gate. unfold bind at 1.
  rewrite (_on_empty_column_run _ Hrows).
  destruct (forallb _ _).
  - change (negb true) with false. cbv iota. done.
  - change (negb false) with true. cbv iota. unfold bind at 1.
    by rewrite _add_column_run.
Qed.

(** X8. [_multi_mode_gate] is not atomic.  Given a list of wires whose
    first bad index comes after some good ones, it does to the matrix all
    it does for the good ones alone, the new column included, and then
    raises [IndexError]. *)
Theorem multi_mode_gate_partial (circuit_op : string) (wires : list Z) (bad : Z)
  (rest : list Z) (self : Circuit) :
  let n := Z.of_nat (length (_circuit_matrix self)) in
  Forall (fun cells => cells <> []) (_circuit_matrix self) ->
  Forall (fun wire => 0 <= wire < n) wires ->
  ~ (- n <= bad < n) ->
  fst (_multi_mode_gate circuit_op wires self) = Return tt /\
  _multi_mode_gate circuit_op (wires ++ bad :: rest) self =
  (Raise IndexError, snd (_multi_mode_gate circuit_op wires self)).
Proof.
  intros n Hrows Hwires Hbad. subst n.
  assert (forall start : Circuit,
    Forall (fun cells => cells <> []) (_circuit_matrix start) ->
    length (_circuit_matrix start) = length (_circuit_matrix self) ->
    let body := fun wire =>
      wire_ops <~ matrix_getitem wire ;; row_set_last wire_ops circuit_op in
    fst (for_ wires body start) = Return tt /\
    for_ (wires ++ bad :: rest) body start =
    (Raise IndexError, snd (for_ wires body start))) as Hloop.
  { intros start Hstart Hlen body.
    destruct (set_last_loop_run circuit_op wires start Hstart)
      as (matrix' & Hrun & Hlookup); [by rewrite Hlen|].
    fold body in Hrun. rewrite for_app. unfold bind at 1. rewrite Hrun.
    split; [done|]. simpl. unfold body at 1. unfold bind at 1. unfold bind at 1.
    rewrite matrix_getitem_run, with_matrix_matrix.
    destruct (set_last_loop_placed circuit_op wires start) as (k & m'' & Hstate & Hw & _).
    fold body in Hstate. rewrite Hrun in Hstate. simpl in Hstate.
    apply (f_equal _circuit_matrix) in Hstate. rewrite !with_matrix_matrix in Hstate.
    subst m''. rewrite (widened_length _ _ _ Hw), Hlen.
    by rewrite (proj2 (index_None _ _) Hbad). }
  rewrite !(_multi_mode_gate_loop _ _ _ Hrows).
  destruct (forallb _ _).
  - by apply Hloop.
  - apply Hloop.
    + rewrite with_matrix_matrix.
      apply (widened_nonempty 1 (_circuit_matrix self)); [|done].
      apply new_column_widened.
    + by rewrite with_matrix_matrix, append_cells_length.
Qed.

(** *** The column helpers *)

(** X9. [_on_empty_column] only reads: the state after it is the state
    before it.  On a matrix whose wires all have a cell it returns, and
    returns [True] exactly when the last cell of every wire is an empty
    wire. *)
Theorem on_empty_column_spec (self : Circuit) :
  snd (_on_empty_column self) = self /\
  (Forall (fun cells => cells <> []) (_circuit_matrix self) ->
   exists empty_column : bool,
     fst (_on_empty_column self) = Return empty_column /\
     (empty_column = true <->
      Forall (fun cells => last cells = Some (QUANTUM_WIRE 1)) (_circuit_matrix self))).
Proof.
  split; [apply _on_empty_column_state|].
  intros Hrows. rewrite (_on_empty_column_run _ Hrows).
  eexists. split; [done|]. apply column_empty_Forall.
Qed.

(** X10. [_add_column] returns, having appended one empty wire to every
    wire; the column test that follows it answers [True]. *)
Theorem add_column_spec (self : Circuit) :
  exists matrix',
    _add_column self = (Return tt, with_matrix matrix' self) /\
    length matrix' = length (_circuit_matrix self) /\
    (forall (i : nat) (cells : list string),
        _circuit_matrix self !! i = Some cells ->
        matrix' !! i = Some (cells ++ [QUANTUM_WIRE 1])) /\
    fst ((_add_column ;;; _on_empty_column) self) = Return true.
Proof.
  rewrite _add_column_run. eexists. split; [done|].
  split; [apply append_cells_length|].
  split; [intros i cells Hi; by rewrite new_column_lookup, Hi|].
  unfold bind. rewrite _add_column_run.
  assert (Forall (fun cells => last cells = Some (QUANTUM_WIRE 1))
            (append_cells (fun _ => QUANTUM_WIRE 1)
               (seq 0 (length (_circuit_matrix self))) (_circuit_matrix self)))
    as Hempty.
  { apply Forall_lookup. intros i cells'. rewrite new_column_lookup.
    destruct (_ !! i) as [cells|]; simpl; [|done].
    intros [= <-]. apply last_snoc. }
  rewrite _on_empty_column_run, with_matrix_matrix.
  - simpl. f_equal. by apply column_empty_Forall.
  - rewrite with_matrix_matrix. eapply Forall_impl; [exact Hempty|].
    intros cells Hlast ->. done.
Qed.

(** *** More on the translation *)

(** X11. An operator in whose text before the pipe no key of either table
    occurs is refused with [UnsupportedGateException]; the message holds
    [str(op)] in full, and the state is left as it was. *)
Theorem unsupported_operator (op : operator) (self : Circuit) (gate_kind : string) :
  split_head PIPE (op_str op) = Some gate_kind ->
  ~ Exists (fun entry => str_in (fst entry) gate_kind = true) (two_mode_gates self) ->
  ~ Exists (fun entry => str_in (fst entry) gate_kind = true) (single_mode_gates self) ->
  parse_op op self =
  (Raise (UnsupportedGateException
            ("Unsupported operation " +:+ op_str op
             +:+ " not printable by circuit builder!")), self).
Proof.
  intros Hkind Htwo Hsingle.
  rewrite parse_op_run, _gate_from_operator_run, Hkind. simpl.
  by rewrite (scan_table_no_match _ _ _ _ Htwo), (scan_table_no_match _ _ _ _ Hsingle).
Qed.

Lemma scan_table_last (before after : list (string * method)) (key : string) (f : method)
  (arity : Z) (operator : string) (found : option method * option Z) :
  str_in key operator = true ->
  Forall (fun entry => str_in (fst entry) operator = false) after ->
  scan_table (before ++ (key, f) :: after) arity operator found = (Some f, Some arity).
Proof.
  intros Hkey Hafter. unfold scan_table. rewrite fold_left_app. simpl. rewrite Hkey.
  apply (scan_table_no_match after arity operator).
  intros Hex. apply Exists_exists in Hex as (entry & Hin & Hmatch).
  rewrite Forall_forall in Hafter. rewrite (Hafter entry Hin) in Hmatch. done.
Qed.

(** X12. The loops of [_gate_from_operator] have no [break]: when several
    keys of a table occur in the text, the method of the last of them in
    table order is the one returned. *)
Theorem last_matching_key_wins (op : operator) (self : Circuit) (gate_kind : string)
  (before after : list (string * method)) (key : string) (f : method) :
  split_head PIPE (op_str op) = Some gate_kind ->
  str_in key gate_kind = true ->
  Forall (fun entry => str_in (fst entry) gate_kind = false) after ->
  (two_mode_gates self = before ++ (key, f) :: after ->
   fst (_gate_from_operator op self) = Return (Some f, Some 2)) /\
  (~ Exists (fun entry => str_in (fst entry) gate_kind = true) (two_mode_gates self) ->
   single_mode_gates self = before ++ (key, f) :: after ->
   fst (_gate_from_operator op self) = Return (Some f, Some 1)).
Proof.
  intros Hkind Hkey Hafter. split.
  - intros Htwo. rewrite _gate_from_operator_run, Hkind, Htwo. simpl.
    by rewrite (scan_table_last before after key f 2 gate_kind _ Hkey Hafter).
  - intros Htwo Hsingle. rewrite _gate_from_operator_run, Hkind, Hsingle. simpl.
    rewrite (scan_table_no_match _ _ _ _ Htwo). simpl.
    by rewrite (scan_table_last before after key f 1 gate_kind _ Hkey Hafter).
Qed.

(** The result of a scan is what it started from or an entry of the
    table. *)
Lemma scan_table_result (table : list (string * method)) (arity : Z) (operator : string)
  (found : option method * option Z) :
  scan_table table arity operator found = found \/
  exists key f,
    (key, f) ∈ table /\ scan_table table arity operator found = (Some f, Some arity).
Proof.
  unfold scan_table. revert found.
  induction table as [|[key f] table IH]; intros found; simpl; [by left|].
  destruct (str_in key operator).
  - destruct (IH (Some f, Some arity)) as [->|(key' & f' & Hin & ->)].
    + right. exists key, f. split; [by left|done].
    + right. exists key', f'. split; [by right|done].
  - destruct (IH found) as [->|(key' & f' & Hin & ->)]; [by left|].
    right. exists key', f'. split; [by right|done].
Qed.

(** With the tables of the constructor, a method comes with the number of
    wires that it takes. *)
Lemma constructor_tables_found (op : operator) (self : Circuit) (f : method)
  (mode : option Z) :
  constructor_tables self ->
  fst (_gate_from_operator op self) = Return (Some f, mode) ->
  (mode = Some 2 /\ f ∈ [meth_cx; meth_cz; meth_ck; meth_bs; meth_s2]) \/
  (mode = Some 1 /\
   f ∈ [meth_x; meth_z; meth_d; meth_s; meth_r; meth_p; meth_v; meth_k; meth_fourier]).
Proof.
  intros [Hsingle Htwo]. rewrite _gate_from_operator_run.
  destruct (split_head _ _) as [operator|]; [|done].
  cbv zeta. simpl fst. rewrite Hsingle, Htwo.
  destruct (scan_table_result (two_mode_gates (__init__ 0)) 2 operator (None, None))
    as [->|(key & g & Hin & ->)]; simpl fst.
  - destruct (scan_table_result (single_mode_gates (__init__ 0)) 1 operator (None, None))
      as [->|(key & g & Hin & ->)]; [done|].
    intros [= <- <-]. right. split; [done|].
    apply (list_elem_of_fmap_2 snd) in Hin. exact Hin.
  - intros [= <- <-]. left. split; [done|].
    apply (list_elem_of_fmap_2 snd) in Hin. exact Hin.
Qed.

Lemma set_last_loop_raises (circuit_op : string) (wires : list Z) (self self' : Circuit)
  (e : exn) :
  for_ wires (fun wire =>
    wire_ops <~ matrix_getitem wire ;; row_set_last wire_ops circuit_op) self =
  (Raise e, self') ->
  e = IndexError.
Proof.
  revert self. induction wires as [|wire wires IH]; intros self; simpl; [done|].
  unfold bind at 1. unfold bind at 1. rewrite matrix_getitem_run.
  destruct (index _ wire) as [wire_ops|]; [|by intros [= <- _]].
  rewrite row_set_last_run.
  destruct (_ ≫= last); [|by intros [= <- _]].
  apply IH.
Qed.

(** The operation types raise nothing but [IndexError]. *)
Lemma operation_types_raise (self self' : Circuit) (e : exn) :
  (forall wire circuit_op,
      _single_mode_gate wire circuit_op self = (Raise e, self') -> e = IndexError) /\
  (forall circuit_op wires,
      _multi_mode_gate circuit_op wires self = (Raise e, self') -> e = IndexError) /\
  (forall source_wire target_wire circuit_op,
      _controlled_mode_gate source_wire target_wire circuit_op self = (Raise e, self') ->
      e = IndexError).
Proof.
  split; [|split].
  - intros wire circuit_op. rewrite _single_mode_gate_run. cbv zeta.
    destruct (index _ wire); [|by intros [= <- _]].
    destruct (_ ≫= last) as [cell|]; [|by intros [= <- _]].
    by destruct (_is_empty cell).
  - intros circuit_op wires. unfold _multi_mode_gate. unfold bind at 1.
    destruct (_on_empty_column_state self) as [Hstate Hexn].
    destruct (_on_empty_column self) as [[empty_column|e'] s]; simpl in *; subst s.
    2: { intros [= <- _]. by apply Hexn. }
    unfold bind at 1. destruct empty_column; simpl.
    + apply set_last_loop_raises.
    + rewrite _add_column_run. apply set_last_loop_raises.
  - intros source_wire target_wire circuit_op.
    rewrite _controlled_mode_gate_run. cbv zeta.
    destruct (index _ source_wire); [|by intros [= <- _]].
    destruct (index _ target_wire); [|by intros [= <- _]].
    destruct (_ ≫= last) as [source_cell|]; [|by intros [= <- _]].
    destruct (_is_empty source_cell); [|done].
    destruct (_ ≫= last) as [target_cell|]; [|by intros [= <- _]].
    by destruct (_is_empty target_cell).
Qed.

Lemma split_head_None (sep s : string) : split_head sep s = None <-> sep = "".
Proof. unfold split_head. by destruct sep. Qed.

(** X13. With the tables of the constructor every method is called with
    the number of wires it takes: [parse_op] never raises [TypeError].
    What it can raise is [IndexError], its own two exceptions, and
    [ValueError], the latter only if the pipe is the empty string. *)
Theorem parse_op_exceptions (op : operator) (self self' : Circuit) (e : exn) :
  constructor_tables self ->
  parse_op op self = (Raise e, self') ->
  e = IndexError \/ (e = ValueError /\ PIPE = "") \/
  (exists msg, e = UnsupportedGateException msg) \/
  (exists msg, e = ModeMismatchException msg).
Proof.
  intros Htables. rewrite parse_op_run.
  destruct (fst (_gate_from_operator op self)) as [[[f|] mode]|e'] eqn:Hfound.
  - case_decide as Hmode; [|intros [= <- _]; eauto 6].
    destruct (operation_types_raise self self' e) as (Hsingle & Hmulti & Hcontrolled).
    destruct (constructor_tables_found op self f mode Htables Hfound)
      as [[-> Hf]|[-> Hf]]; injection Hmode as Hlen.
    + destruct (op_reg op) as [|wire1 [|wire2 [|wire3 wires]]]; simpl in Hlen; try lia.
      rewrite !elem_of_cons, elem_of_nil in Hf.
      destruct Hf as [->|[->|[->|[->|[->|[]]]]]]; simpl; intros Hrun; left;
        first [by eapply Hcontrolled|by eapply Hmulti].
    + destruct (op_reg op) as [|wire1 [|wire2 wires]]; simpl in Hlen; try lia.
      rewrite !elem_of_cons, elem_of_nil in Hf.
      destruct Hf as [->|[->|[->|[->|[->|[->|[->|[->|[->|[]]]]]]]]]]; simpl;
        intros Hrun; left; by eapply Hsingle.
  - intros [= <- _]. eauto 6.
  - rewrite _gate_from_operator_run in Hfound.
    destruct (split_head _ _) eqn:Hsplit; [done|].
    simpl in Hfound. injection Hfound as <-.
    intros [= <- _]. right. left. split; [done|]. by apply split_head_None in Hsplit.
Qed.

(** On wires from [0] to [n - 1] of a matrix whose wires all have a cell,
    every operation type returns. *)
Lemma operation_types_return (self : Circuit) :
  let n := Z.of_nat (length (_circuit_matrix self)) in
  Forall (fun cells => cells <> []) (_circuit_matrix self) ->
  (forall wire circuit_op,
      0 <= wire < n -> fst (_single_mode_gate wire circuit_op self) = Return tt) /\
  (forall circuit_op wires,
      Forall (fun wire => 0 <= wire < n) wires ->
      fst (_multi_mode_gate circuit_op wires self) = Return tt) /\
  (forall source_wire target_wire circuit_op,
      0 <= source_wire < n -> 0 <= target_wire < n ->
      fst (_controlled_mode_gate source_wire target_wire circuit_op self) = Return tt).
Proof.
  intros n Hrows. subst n. split; [|split].
  - intros wire circuit_op Hwire. rewrite _single_mode_gate_run. cbv zeta.
    rewrite (index_in_range _ _ Hwire).
    destruct (nonempty_last _ (Z.to_nat wire) Hrows) as [cell ->]; [lia|].
    by destruct (_is_empty cell).
  - intros circuit_op wires Hwires. rewrite (_multi_mode_gate_loop _ _ _ Hrows).
    destruct (forallb _ _).
    + destruct (set_last_loop_run circuit_op wires self Hrows Hwires)
        as (matrix' & -> & _). done.
    + destruct (set_last_loop_run circuit_op wires
                  (with_matrix
                     (append_cells (fun _ => QUANTUM_WIRE 1)
                        (seq 0 (length (_circuit_matrix self))) (_circuit_matrix self))
                     self)) as (matrix' & -> & _); [| |done].
      * rewrite with_matrix_matrix.
        apply (widened_nonempty 1 (_circuit_matrix self)); [|done].
        apply new_column_widened.
      * by rewrite with_matrix_matrix, append_cells_length.
  - intros source_wire target_wire circuit_op Hsource Htarget.
    rewrite _controlled_mode_gate_run. cbv zeta.
    rewrite (index_in_range _ _ Hsource), (index_in_range _ _ Htarget).
    destruct (nonempty_last _ (Z.to_nat source_wire) Hrows) as [source_cell ->]; [lia|].
    destruct (nonempty_last _ (Z.to_nat target_wire) Hrows) as [target_cell ->]; [lia|].
    by destruct (_is_empty source_cell), (_is_empty target_cell).
Qed.

(** X14. No valid event is refused: with the tables of the constructor and
    a cell on every wire, an operator that is classified with the arity of
    its wire list, on wires from [0] to [n - 1], is accepted. *)
Theorem parse_op_accepts (op : operator) (self : Circuit) (f : method) (arity : Z) :
  constructor_tables self ->
  Forall (fun cells => cells <> []) (_circuit_matrix self) ->
  fst (_gate_from_operator op self) = Return (Some f, Some arity) ->
  arity = Z.of_nat (length (op_reg op)) ->
  Forall (fun wire => 0 <= wire < Z.of_nat (length (_circuit_matrix self))) (op_reg op) ->
  fst (parse_op op self) = Return tt.
Proof.
  intros Htables Hrows Hfound Harity Hwires.
  rewrite parse_op_run, Hfound. rewrite decide_True by congruence.
  destruct (operation_types_return self Hrows) as (Hsingle & Hmulti & Hcontrolled).
  destruct (constructor_tables_found op self f (Some arity) Htables Hfound)
    as [[[= ->] Hf]|[[= ->] Hf]].
  - destruct (op_reg op) as [|wire1 [|wire2 [|wire3 wires]]]; simpl in Harity; try lia.
    apply Forall_cons in Hwires as [Hwire1 Hwires].
    apply Forall_cons in Hwires as [Hwire2 _].
    rewrite !elem_of_cons, elem_of_nil in Hf.
    destruct Hf as [->|[->|[->|[->|[->|[]]]]]];
      cbv beta iota delta [call _cx _cz _ck _bs _s2];
      first [by apply Hcontrolled
            |apply Hmulti; by apply Forall_cons_2; [|apply Forall_cons_2; [|apply Forall_nil]]].
  - destruct (op_reg op) as [|wire1 [|wire2 wires]]; simpl in Harity; try lia.
    apply Forall_cons in Hwires as [Hwire1 _].
    rewrite !elem_of_cons, elem_of_nil in Hf.
    destruct Hf as [->|[->|[->|[->|[->|[->|[->|[->|[->|[]]]]]]]]]];
      cbv beta iota delta [call _x _z _d _s _r _p _v _k _fourier];
      by apply Hsingle.
Qed.

(** *** Columns *)

Lemma set_last_loop_widths (circuit_op : string) (wires : list Z) (self : Circuit) :
  exists matrix',
    snd (for_ wires (fun wire =>
           wire_ops <~ matrix_getitem wire ;; row_set_last wire_ops circuit_op) self) =
    with_matrix matrix' self /\
    widened 0 (_circuit_matrix self) matrix'.
Proof.
  revert self. induction wires as [|wire wires IH]; intros self; simpl.
  - exists (_circuit_matrix self). by rewrite with_matrix_same; split; [|apply widened_refl].
  - unfold bind at 1. unfold bind at 1. rewrite matrix_getitem_run.
    destruct (index _ wire) as [wire_ops|].
    2: { exists (_circuit_matrix self). simpl.
         by rewrite with_matrix_same; split; [|apply widened_refl]. }
    rewrite row_set_last_run.
    destruct (_ ≫= last).
    2: { exists (_circuit_matrix self). simpl.
         by rewrite with_matrix_same; split; [|apply widened_refl]. }
    match goal with |- context [for_ wires _ ?s] => destruct (IH s) as (matrix' & -> & Hw) end.
    exists matrix'. rewrite with_matrix_twice. split; [done|].
    rewrite with_matrix_matrix in Hw.
    apply (widened_trans 0 0 _ _ _ (set_last_widened _ _ _) Hw).
Qed.

(** X15. One event, at most one column: whatever its outcome, [parse_op]
    gives every wire the same number of new cells, none or one; the one
    exception is a wire addressed as [-1], for which it can be two. *)
Theorem parse_op_columns (op : operator) (self : Circuit) :
  exists k : nat,
    widened k (_circuit_matrix self) (_circuit_matrix (snd (parse_op op self))) /\
    (k <= 2)%nat /\
    (-1 ∉ op_reg op -> (k <= 1)%nat).
Proof.
  assert (exists k : nat,
             widened k (_circuit_matrix self) (_circuit_matrix self) /\
             (k <= 2)%nat /\ (-1 ∉ op_reg op -> (k <= 1)%nat)) as Hsame.
  { exists 0%nat. split; [apply widened_refl|]. lia. }
  assert (forall circuit_op wires,
             exists k : nat,
               widened k (_circuit_matrix self)
                 (_circuit_matrix (snd (_multi_mode_gate circuit_op wires self))) /\
               (k <= 2)%nat /\ (-1 ∉ op_reg op -> (k <= 1)%nat)) as Hmulti.
  { intros circuit_op wires. unfold _multi_mode_gate. unfold bind at 1.
    destruct (_on_empty_column_state self) as [Hstate _].
    destruct (_on_empty_column self) as [[empty_column|e] s]; simpl in Hstate; subst s;
      [|done].
    unfold bind at 1. destruct empty_column; simpl.
    - destruct (set_last_loop_widths circuit_op wires self) as (matrix' & -> & Hw).
      exists 0%nat. split; [done|]. lia.
    - rewrite _add_column_run.
      match goal with |- context [for_ wires _ ?s] =>
        destruct (set_last_loop_widths circuit_op wires s) as (matrix' & -> & Hw) end.
      exists 1%nat. rewrite with_matrix_matrix in *. split; [|lia].
      apply (widened_trans 1 0 _ _ _ (new_column_widened _ _) Hw). }
  assert (forall source_wire target_wire circuit_op,
             exists k : nat,
               widened k (_circuit_matrix self)
                 (_circuit_matrix
                    (snd (_controlled_mode_gate source_wire target_wire circuit_op self))) /\
               (k <= 2)%nat /\ (-1 ∉ op_reg op -> (k <= 1)%nat)) as Hcontrolled.
  { intros source_wire target_wire circuit_op.
    rewrite _controlled_mode_gate_run. cbv zeta.
    assert (exists k : nat,
               widened k (_circuit_matrix self)
                 (append_cells (controlled_cell source_wire target_wire circuit_op)
                    (seq 0 (length (_circuit_matrix self))) (_circuit_matrix self)) /\
               (k <= 2)%nat /\ (-1 ∉ op_reg op -> (k <= 1)%nat)) as Hnew.
    { exists 1%nat. split; [apply new_column_widened|lia]. }
    destruct (index _ source_wire); [|done].
    destruct (index _ target_wire); [|done].
    destruct (_ ≫= last) as [source_cell|]; [|done].
    destruct (_is_empty source_cell); [|done].
    destruct (_ ≫= last) as [target_cell|]; [|done].
    destruct (_is_empty target_cell); [|done].
    exists 0%nat. split; [|lia]. simpl.
    eapply (widened_trans 0 0); apply set_last_widened. }
  assert (forall wire circuit_op,
             op_reg op = [wire] ->
             exists k : nat,
               widened k (_circuit_matrix self)
                 (_circuit_matrix (snd (_single_mode_gate wire circuit_op self))) /\
               (k <= 2)%nat /\ (-1 ∉ op_reg op -> (k <= 1)%nat)) as Hsingle.
  { intros wire circuit_op Hreg. rewrite _single_mode_gate_run. cbv zeta.
    destruct (index _ wire) eqn:Hrow; [|done].
    destruct (_ ≫= last) as [cell|]; [|done].
    destruct (_is_empty cell); simpl.
    - exists 0%nat. split; [apply set_last_widened|lia].
    - eexists. split; [by apply overflow_widened|].
      rewrite Hreg. case_decide as Hwire; [subst wire|lia].
      split; [lia|]. intros Hnot. destruct Hnot. by left. }
  rewrite parse_op_run.
  destruct (fst (_gate_from_operator op self)) as [[[f|] mode]|e]; [|done..].
  case_decide; [|done].
  destruct (op_reg op) as [|wire1 [|wire2 [|wire3 wires]]] eqn:Hreg;
    [done| | |done].
  - destruct f; cbv beta iota delta [call _x _z _d _s _r _p _v _k _fourier];
      first [by apply Hsingle|done].
  - destruct f; cbv beta iota delta [call _cx _cz _ck _bs _s2];
      first [apply Hmulti|apply Hcontrolled|done].
Qed.



(** *** Spacing *)


(** *** Cells once written *)

Lemma row_extends_refl (cells : list string) : row_extends cells cells.
Proof. split; [done|]. intros column cell Hcell. by left. Qed.

Lemma row_extends_app (cells new_cells : list string) :
  row_extends cells (cells ++ new_cells).
Proof.
  split; [rewrite length_app; lia|].
  intros column cell Hcell. left. by apply lookup_app_l_Some.
Qed.

Lemma row_extends_set_last (cells : list string) (cell : string) :
  last cells = Some (QUANTUM_WIRE 1) ->
  row_extends cells (<[pred (length cells) := cell]> cells).
Proof.
  intros Hlast. split; [by rewrite length_insert|].
  intros column old Hold.
  destruct (decide (column = pred (length cells))) as [->|Hne].
  - right. rewrite last_lookup in Hlast. apply lookup_lt_Some in Hold as Hlt.
    split; [congruence|lia].
  - left. by rewrite list_lookup_insert_ne.
Qed.

Lemma history_kept_refl (m : list (list string)) : history_kept m m.
Proof. split; [done|]. intros i cells Hi. eauto using row_extends_refl. Qed.

(** The loop of [_multi_mode_gate] leaves each wire as it was or with its
    last cell overwritten, whatever its outcome. *)
Lemma set_last_loop_rows (circuit_op : string) (wires : list Z) (self : Circuit) :
  exists matrix',
    snd (for_ wires (fun wire =>
           wire_ops <~ matrix_getitem wire ;; row_set_last wire_ops circuit_op) self) =
    with_matrix matrix' self /\
    forall i : nat,
      matrix' !! i = _circuit_matrix self !! i \/
      matrix' !! i =
      (fun cells => <[pred (length cells) := circuit_op]> cells)
      <$> _circuit_matrix self !! i.
Proof.
  revert self. induction wires as [|wire wires IH]; intros self; simpl.
  - exists (_circuit_matrix self). rewrite with_matrix_same. split; [done|]. by left.
  - unfold bind at 1. unfold bind at 1. rewrite matrix_getitem_run.
    destruct (index _ wire) as [wire_ops|].
    2: { exists (_circuit_matrix self). simpl. rewrite with_matrix_same.
         split; [done|]. by left. }
    rewrite row_set_last_run.
    destruct (_ ≫= last).
    2: { exists (_circuit_matrix self). simpl. rewrite with_matrix_same.
         split; [done|]. by left. }
    match goal with |- context [for_ wires _ ?s] =>
      destruct (IH s) as (matrix' & -> & Hrows) end.
    exists matrix'. rewrite with_matrix_twice. split; [done|].
    intros i. rewrite with_matrix_matrix in Hrows.
    destruct (Hrows i) as [->| ->]; rewrite list_lookup_alter; case_decide; subst;
      auto.
    right. destruct (_ !! i); simpl; [|done].
    by rewrite length_insert, list_insert_insert_eq.
Qed.

(** When the column test answers [True], the last cell of every wire is
    an empty wire. *)
Lemma _on_empty_column_loop_true (a k : nat) (self self' : Circuit) :
  _on_empty_column_loop (seq a k) self = (Return true, self') ->
  forall i : nat, (a <= i < a + k)%nat ->
    _circuit_matrix self !! i ≫= last = Some (QUANTUM_WIRE 1).
Proof.
  revert a. induction k as [|k IH]; intros a; simpl; [intros; lia|].
  unfold bind. rewrite row_last_run.
  destruct (_ ≫= last) as [cell|] eqn:Hcell; [|done].
  destruct (_is_empty cell) eqn:Hempty; simpl; [|done].
  intros Hrun i Hi. destruct (decide (i = a)) as [->|Hne].
  - rewrite Hcell. f_equal. by apply _is_empty_true.
  - apply (IH (S a) Hrun). lia.
Qed.

Lemma _multi_mode_gate_history (circuit_op : string) (wires : list Z) (self : Circuit) :
  history_kept (_circuit_matrix self)
    (_circuit_matrix (snd (_multi_mode_gate circuit_op wires self))).
Proof.
  unfold _multi_mode_gate. unfold bind at 1.
  destruct (_on_empty_column_state self) as [Hstate _].
  destruct (_on_empty_column self) as [[empty_column|e] s] eqn:Htest;
    simpl in Hstate; subst s; [|apply history_kept_refl].
  unfold bind at 1. destruct empty_column; simpl.
  - destruct (set_last_loop_rows circuit_op wires self) as (matrix' & Hrun & Hrows).
    destruct (set_last_loop_widths circuit_op wires self) as (m'' & Hrun' & Hw).
    rewrite Hrun in Hrun'. apply (f_equal _circuit_matrix) in Hrun'.
    rewrite !with_matrix_matrix in Hrun'. subst m''.
    rewrite Hrun, with_matrix_matrix. split; [by apply (widened_length 0)|].
    intros i cells Hi. destruct (Hrows i) as [Hsame|Hset]; rewrite Hi in *.
    + eauto using row_extends_refl.
    + eexists. split; [done|]. apply row_extends_set_last.
      unfold _on_empty_column, bind in Htest. rewrite matrix_enumerate_run in Htest.
      pose proof (_on_empty_column_loop_true _ _ _ _ Htest i) as Hlast.
      rewrite Hi in Hlast. apply Hlast. apply lookup_lt_Some in Hi. lia.
  - rewrite _add_column_run.
    match goal with |- context [for_ wires _ ?s] =>
      destruct (set_last_loop_rows circuit_op wires s) as (matrix' & Hrun & Hrows);
      destruct (set_last_loop_widths circuit_op wires s) as (m'' & Hrun' & Hw) end.
    rewrite Hrun in Hrun'. apply (f_equal _circuit_matrix) in Hrun'.
    rewrite !with_matrix_matrix in Hrun'. subst m''.
    rewrite Hrun, !with_matrix_matrix. rewrite with_matrix_matrix in Hw, Hrows.
    split; [by rewrite (widened_length 0 _ _ Hw), append_cells_length|].
    intros i cells Hi. specialize (Hrows i).
    rewrite new_column_lookup, Hi in Hrows. simpl in Hrows.
    destruct Hrows as [Hsame|Hset]; eexists; (split; [done|]).
    + apply row_extends_app.
    + rewrite length_app. simpl.
      replace (pred (length cells + 1)) with (length cells + 0)%nat by lia.
      rewrite insert_app_r. apply row_extends_app.
Qed.

Lemma _single_mode_gate_history (wire : Z) (circuit_op : string) (self : Circuit) :
  history_kept (_circuit_matrix self)
    (_circuit_matrix (snd (_single_mode_gate wire circuit_op self))).
Proof.
  rewrite _single_mode_gate_run. cbv zeta.
  destruct (index _ wire) as [row|]; [|apply history_kept_refl].
  destruct (_ ≫= last) as [cell|] eqn:Hcell; [|apply history_kept_refl].
  destruct (_is_empty cell) eqn:Hempty; simpl.
  - apply _is_empty_true in Hempty. subst cell.
    split; [by rewrite length_alter|].
    intros i cells Hi. rewrite list_lookup_alter. case_decide; subst.
    + rewrite Hi in *. eexists. split; [done|]. by apply row_extends_set_last.
    + eauto using row_extends_refl.
  - split; [by rewrite !append_cells_length, length_alter|].
    intros i cells Hi. rewrite overflow_lookup by apply slice_bound_le.
    rewrite Hi. eexists. split; [done|]. apply row_extends_app.
Qed.

Lemma _controlled_mode_gate_history (source_wire target_wire : Z) (circuit_op : string)
  (self : Circuit) :
  history_kept (_circuit_matrix self)
    (_circuit_matrix
       (snd (_controlled_mode_gate source_wire target_wire circuit_op self))).
Proof.
  rewrite _controlled_mode_gate_run. cbv zeta.
  assert (history_kept (_circuit_matrix self)
            (append_cells (controlled_cell source_wire target_wire circuit_op)
               (seq 0 (length (_circuit_matrix self))) (_circuit_matrix self)))
    as Hnew.
  { split; [apply append_cells_length|].
    intros i cells Hi. rewrite new_column_lookup, Hi. eexists. split; [done|].
    apply row_extends_app. }
  destruct (index _ source_wire) as [source_ops|]; [|apply history_kept_refl].
  destruct (index _ target_wire) as [target_ops|]; [|apply history_kept_refl].
  destruct (_circuit_matrix self !! source_ops ≫= last) as [source_cell|] eqn:Hsource;
    [|apply history_kept_refl].
  destruct (_is_empty source_cell) eqn:Hs; [|done].
  destruct (_circuit_matrix self !! target_ops ≫= last) as [target_cell|] eqn:Htarget;
    [|apply history_kept_refl].
  destruct (_is_empty target_cell) eqn:Ht; [|done].
  apply _is_empty_true in Hs, Ht. subst. simpl.
  split; [by rewrite !length_alter|].
  intros i cells Hi. rewrite !list_lookup_alter.
  destruct (decide (target_ops = i)) as [<-|Hti],
    (decide (source_ops = target_ops)) as [->|Hst];
    rewrite ?Hi in *; simpl in *.
  - eexists. split; [done|].
    rewrite length_insert, list_insert_insert_eq. by apply row_extends_set_last.
  - eexists. split; [done|]. by apply row_extends_set_last.
  - rewrite decide_False by done. eauto using row_extends_refl.
  - case_decide; subst; rewrite ?Hi in *; simpl in *.
    + eexists. split; [done|]. by apply row_extends_set_last.
    + eauto using row_extends_refl.
Qed.

(** X18. Nothing written is lost: whatever its outcome, [parse_op] keeps
    every wire and every cell where it is, with the one exception that an
    empty wire in the last place of a wire may be replaced. *)
Theorem parse_op_keeps_history (op : operator) (self : Circuit) :
  history_kept (_circuit_matrix self) (_circuit_matrix (snd (parse_op op self))).
Proof.
  rewrite parse_op_run.
  destruct (fst (_gate_from_operator op self)) as [[[f|] mode]|e];
    [|apply history_kept_refl..].
  case_decide; [|apply history_kept_refl].
  destruct (op_reg op) as [|wire1 [|wire2 [|wire3 wires]]];
    [apply history_kept_refl| | |apply history_kept_refl].
  - destruct f; cbv beta iota delta [call _x _z _d _s _r _p _v _k _fourier];
      first [apply _single_mode_gate_history|apply history_kept_refl].
  - destruct f; cbv beta iota delta [call _cx _cz _ck _bs _s2];
      first [apply _multi_mode_gate_history|apply _controlled_mode_gate_history
            |apply history_kept_refl].
Qed.

(** *** Operators that are no gates *)

Lemma str_in_trans (a b c : string) :
  str_in a b = true -> str_in b c = true -> str_in a c = true.
Proof.
  rewrite !str_in_spec. intros (b1 & b2 & ->) (c1 & c2 & ->).
  exists (c1 +:+ b1), (b2 +:+ c2). by rewrite !append_assoc.
Qed.

(** X19. Every key of the constructor's tables holds "gate" or "Gate": an
    operator whose text before the pipe holds neither, such as a
    measurement, is refused with [UnsupportedGateException] and leaves the
    state as it was. *)
Theorem operator_without_gate (op : operator) (self : Circuit) (gate_kind : string) :
  constructor_tables self ->
  split_head PIPE (op_str op) = Some gate_kind ->
  str_in "gate" gate_kind = false ->
  str_in "Gate" gate_kind = false ->
  parse_op op self =
  (Raise (UnsupportedGateException
            ("Unsupported operation " +:+ op_str op
             +:+ " not printable by circuit builder!")), self).
Proof.
  intros [Hsingle Htwo] Hkind Hgate HGate.
  assert (forall key,
             str_in "gate" key = true \/ str_in "Gate" key = true ->
             str_in key gate_kind = true -> False) as Hkey.
  { intros key [Hin|Hin] Hmatch.
    - pose proof (str_in_trans _ _ _ Hin Hmatch). congruence.
    - pose proof (str_in_trans _ _ _ Hin Hmatch). congruence. }
  rewrite parse_op_run, _gate_from_operator_run, Hkind. simpl.
  rewrite !scan_table_no_match; [done| |].
  - rewrite Hsingle. simpl. rewrite !Exists_cons, Exists_nil. simpl.
    intros Hex. repeat (destruct Hex as [Hex|Hex]; [by eapply Hkey; [|exact Hex]; auto|]).
    done.
  - rewrite Htwo. simpl. rewrite !Exists_cons, Exists_nil. simpl.
    intros Hex. repeat (destruct Hex as [Hex|Hex]; [by eapply Hkey; [|exact Hex]; auto|]).
    done.
Qed.

End Further.

(** ** The further properties at work *)

Section FurtherExamples.
Local Existing Instance qcircuit.

Lemma reachable_shape_witness :
  reachable 3 (snd (parse_op cx_up x_on_first)) /\
  length (_circuit_matrix (snd (parse_op cx_up x_on_first))) = Z.to_nat 3 /\
  Forall (fun cells => cells <> []) (_circuit_matrix (snd (parse_op cx_up x_on_first))).
Proof.
  assert (reachable 3 (snd (parse_op cx_up x_on_first))) as Hreach.
  { apply (reachable_step 3 x_on_first cx_up); [|reflexivity].
    apply (reachable_step 3 three_wires x_first); [|reflexivity].
    apply reachable_init. }
  split; [exact Hreach|].
  destruct (reachable_shape 3 _ Hreach) as (Hlen & Hrows & _).
  split; [exact Hlen|exact Hrows].
Defined.

Lemma single_and_controlled_atomic_witness :
  _single_mode_gate 7 "\gate{X}" x_on_first = (Raise IndexError, x_on_first) /\
  _controlled_mode_gate 0 7 "\targ" x_on_first = (Raise IndexError, x_on_first) /\
  IndexError = IndexError /\ x_on_first = x_on_first.
Proof.
  split; [reflexivity|]. split; [reflexivity|].
  exact (proj1 (single_and_controlled_atomic x_on_first x_on_first IndexError)
           7 "\gate{X}" eq_refl).
Defined.

Lemma single_mode_gate_index_range_witness :
  Forall (fun cells => cells <> []) (_circuit_matrix three_wires) /\
  fst (_single_mode_gate (-3) "\gate{X}" three_wires) = Return tt /\
  _single_mode_gate 3 "\gate{X}" three_wires = (Raise IndexError, three_wires).
Proof.
  assert (Forall (fun cells : list string => cells <> []) (_circuit_matrix three_wires))
    as Hrows by (repeat constructor; discriminate).
  split; [exact Hrows|]. split.
  - apply (proj1 (single_mode_gate_index_range (-3) "\gate{X}" three_wires Hrows)).
    simpl. lia.
  - apply (proj2 (single_mode_gate_index_range 3 "\gate{X}" three_wires Hrows)).
    simpl. lia.
Defined.

Lemma single_mode_gate_last_cell_witness :
  0 <= 0 < Z.of_nat (length (_circuit_matrix x_on_first)) /\
  Forall (fun cells => cells <> []) (_circuit_matrix x_on_first) /\
  exists matrix',
    _single_mode_gate 0 "\gate{Z}" x_on_first = (Return tt, with_matrix matrix' x_on_first) /\
    matrix' !! Z.to_nat 0 ≫= last = Some "\gate{Z}".
Proof.
  assert (Forall (fun cells : list string => cells <> []) (_circuit_matrix x_on_first))
    as Hrows by (repeat constructor; discriminate).
  split; [simpl; lia|]. split; [exact Hrows|].
  apply (single_mode_gate_last_cell 0 "\gate{Z}" x_on_first); [simpl; lia|exact Hrows].
Defined.

Lemma controlled_mode_gate_new_column_witness :
  exists matrix',
    _controlled_mode_gate 2 0 TARGET x_on_first =
    (Return tt, with_matrix matrix' x_on_first) /\
    matrix' !! 0%nat = Some ["\gate{X}"; "\targ"] /\
    matrix' !! 1%nat = Some ["\qw[1]"; "\qw[1]"] /\
    matrix' !! 2%nat = Some ["\qw[1]"; "\ctrl{-2}"].
Proof.
  destruct (controlled_mode_gate_new_column 2 0 TARGET "\qw[1]" "\gate{X}" x_on_first)
    as (matrix' & Hrun & _ & Hcells);
    [simpl; lia|simpl; lia|reflexivity|reflexivity|right; discriminate|].
  exists matrix'. split; [exact Hrun|]. split; [|split].
  - exact (Hcells 0%nat ["\gate{X}"] eq_refl).
  - exact (Hcells 1%nat ["\qw[1]"] eq_refl).
  - exact (Hcells 2%nat ["\qw[1]"] eq_refl).
Defined.

(** The beamsplitter is given wire 1 and then wire 5 of three: the new
    column and the cell on wire 1 stay. *)
Lemma multi_mode_gate_partial_witness :
  _multi_mode_gate BS_COMP [1; 5] x_on_first =
  (Raise IndexError, snd (_multi_mode_gate BS_COMP [1] x_on_first)) /\
  _circuit_matrix (snd (_multi_mode_gate BS_COMP [1] x_on_first)) =
  [["\gate{X}"; "\qw[1]"]; ["\qw[1]"; "\gate{BS}"]; ["\qw[1]"; "\qw[1]"]].
Proof.
  assert (Forall (fun cells : list string => cells <> []) (_circuit_matrix x_on_first))
    as Hrows by (repeat constructor; discriminate).
  assert (Forall (fun wire => 0 <= wire < Z.of_nat (length (_circuit_matrix x_on_first)))
            [1]) as Hwires.
  { apply Forall_cons_2; [simpl; lia|apply Forall_nil_2]. }
  assert (~ (- Z.of_nat (length (_circuit_matrix x_on_first)) <= 5
             < Z.of_nat (length (_circuit_matrix x_on_first)))) as Hbad.
  { simpl. lia. }
  split; [|reflexivity].
  exact (proj2 (multi_mode_gate_partial BS_COMP [1] 5 [] x_on_first Hrows Hwires Hbad)).
Defined.

Lemma on_empty_column_spec_witness :
  Forall (fun cells => cells <> []) (_circuit_matrix x_on_first) /\
  exists empty_column : bool,
    fst (_on_empty_column x_on_first) = Return empty_column /\
    (empty_column = true <->
     Forall (fun cells => last cells = Some (QUANTUM_WIRE 1)) (_circuit_matrix x_on_first)).
Proof.
  assert (Forall (fun cells : list string => cells <> []) (_circuit_matrix x_on_first))
    as Hrows by (repeat constructor; discriminate).
  split; [exact Hrows|].
  exact (proj2 (on_empty_column_spec x_on_first) Hrows).
Defined.

Lemma unsupported_operator_witness :
  split_head PIPE (op_str measure_fock) = Some "MeasureFock() " /\
  parse_op measure_fock x_on_first =
  (Raise (UnsupportedGateException
            "Unsupported operation MeasureFock() | (q[0]) not printable by circuit builder!"),
   x_on_first).
Proof.
  split; [reflexivity|].
  apply (unsupported_operator measure_fock x_on_first "MeasureFock() ").
  - reflexivity.
  - apply Forall_not_Exists. repeat constructor; discriminate.
  - apply Forall_not_Exists. repeat constructor; discriminate.
Defined.

(** "CXgate" and "BSgate" both occur in the text; "BSgate" comes later in
    the table. *)
Lemma last_matching_key_wins_witness :
  split_head PIPE (op_str cx_and_bs) = Some "CXgate(BSgate) " /\
  str_in "CXgate" "CXgate(BSgate) " = true /\
  str_in "BSgate" "CXgate(BSgate) " = true /\
  fst (_gate_from_operator cx_and_bs three_wires) = Return (Some meth_bs, Some 2).
Proof.
  assert (split_head PIPE (op_str cx_and_bs) = Some "CXgate(BSgate) ") as Hkind
    by reflexivity.
  assert (str_in "BSgate" "CXgate(BSgate) " = true) as Hkey by reflexivity.
  assert (Forall (fun entry : string * method => str_in (fst entry) "CXgate(BSgate) " = false)
            [("S2gate", meth_s2)]) as Hafter.
  { apply Forall_cons_2; [reflexivity|apply Forall_nil_2]. }
  split; [exact Hkind|]. split; [reflexivity|]. split; [exact Hkey|].
  apply (proj1 (last_matching_key_wins cx_and_bs three_wires "CXgate(BSgate) "
                  [("CXgate", meth_cx); ("CZgate", meth_cz); ("CKgate", meth_ck)]
                  [("S2gate", meth_s2)] "BSgate" meth_bs Hkind Hkey Hafter)).
  reflexivity.
Defined.

Lemma parse_op_exceptions_witness :
  constructor_tables x_on_first /\
  parse_op bs_on_one x_on_first =
  (Raise (ModeMismatchException "2 mode gate applied to 1 wires!"), x_on_first) /\
  (ModeMismatchException "2 mode gate applied to 1 wires!" = IndexError \/
   (ModeMismatchException "2 mode gate applied to 1 wires!" = ValueError /\ PIPE = "") \/
   (exists msg,
       ModeMismatchException "2 mode gate applied to 1 wires!" =
       UnsupportedGateException msg) \/
   (exists msg,
       ModeMismatchException "2 mode gate applied to 1 wires!" =
       ModeMismatchException msg)).
Proof.
  assert (constructor_tables x_on_first) as Htables by (split; reflexivity).
  split; [exact Htables|]. split; [reflexivity|].
  assert (parse_op bs_on_one x_on_first =
          (Raise (ModeMismatchException "2 mode gate applied to 1 wires!"), x_on_first))
    as Hrun by reflexivity.
  exact (parse_op_exceptions bs_on_one x_on_first x_on_first _ Htables Hrun).
Defined.

Lemma parse_op_accepts_witness :
  constructor_tables x_on_first /\
  Forall (fun cells => cells <> []) (_circuit_matrix x_on_first) /\
  fst (_gate_from_operator cx_down x_on_first) = Return (Some meth_cx, Some 2) /\
  Forall (fun wire => 0 <= wire < Z.of_nat (length (_circuit_matrix x_on_first)))
    (op_reg cx_down) /\
  fst (parse_op cx_down x_on_first) = Return tt.
Proof.
  assert (constructor_tables x_on_first) as Htables by (split; reflexivity).
  assert (Forall (fun cells : list string => cells <> []) (_circuit_matrix x_on_first))
    as Hrows by (repeat constructor; discriminate).
  assert (Forall (fun wire => 0 <= wire < Z.of_nat (length (_circuit_matrix x_on_first)))
            (op_reg cx_down)) as Hwires.
  { apply Forall_cons_2; [simpl; lia|]. apply Forall_cons_2; [simpl; lia|].
    apply Forall_nil_2. }
  assert (fst (_gate_from_operator cx_down x_on_first) = Return (Some meth_cx, Some 2))
    as Hfound by reflexivity.
  assert (2 = Z.of_nat (length (op_reg cx_down))) as Harity by reflexivity.
  split; [exact Htables|]. split; [exact Hrows|]. split; [exact Hfound|].
  split; [exact Hwires|].
  exact (parse_op_accepts cx_down x_on_first meth_cx 2 Htables Hrows Hfound Harity Hwires).
Defined.


Lemma operator_without_gate_witness :
  constructor_tables x_on_first /\
  split_head PIPE (op_str measure_fock) = Some "MeasureFock() " /\
  str_in "gate" "MeasureFock() " = false /\
  str_in "Gate" "MeasureFock() " = false /\
  parse_op measure_fock x_on_first =
  (Raise (UnsupportedGateException
            "Unsupported operation MeasureFock() | (q[0]) not printable by circuit builder!"),
   x_on_first).
Proof.
  assert (constructor_tables x_on_first) as Htables by (split; reflexivity).
  assert (split_head PIPE (op_str measure_fock) = Some "MeasureFock() ") as Hkind
    by reflexivity.
  assert (str_in "gate" "MeasureFock() " = false) as Hgate by reflexivity.
  assert (str_in "Gate" "MeasureFock() " = false) as HGate by reflexivity.
  split; [exact Htables|]. split; [exact Hkind|]. split; [exact Hgate|].
  split; [exact HGate|].
  exact (operator_without_gate measure_fock x_on_first "MeasureFock() " Htables
           Hkind Hgate HGate).
Defined.

End FurtherExamples.
